(** * HarmonyLab: the chord model, the configuration reader, the stave
  notaters and the piano keys

  A shallow embedding of four JavaScript modules of HarmonyLab and the
  properties its specification states about them:

  - [Chord] (the note set: [noteOn], [noteOff], [isNoteOn],
    [getSortedNotes], [mapNotes], [hasNotes], [getNoteNumbers],
    [getNotePitches], [noteNumBelongsToClef]);
  - [Config] ([get], [set] over the tree [__config]);
  - [StaveNotater] ([create], [notate], the two [notateChord] variants);
  - [PianoKey] ([press], [release], [clear], [setSustain], [onPress],
    [onRelease]).

  JavaScript objects used as dictionaries are finite maps from property
  names (strings) to values; methods that mutate [this] take the object
  and return the new one; [throw] is the [Throw] outcome of [Result];
  [trigger] and the draw methods append to the list of emitted events or
  calls that the method returns. *)

From Stdlib Require Import ZArith String Ascii List DecimalString DecimalZ.
From stdpp Require Import gmap strings list fin_maps sorting.

#[local] Open Scope string_scope.
#[local] Open Scope Z_scope.
#[local] Open Scope list_scope.
#[local] Set Warnings "-register-all".

(* ===================================================================== *)
(** ** JavaScript values and conversions *)
(* ===================================================================== *)

Module JS.

(** The values that reach the modelled code. An array is the object whose
    own properties are its indices and [length]. Numbers that are stored
    are integers (note numbers, coordinates, lengths). *)
Inductive Value :=
  | VUndefined
  | VNull
  | VBoolean (b : bool)
  | VNumber (z : Z)
  | VString (s : string)
  | VObject (props : gmap string Value).

(** The result of an arithmetic conversion: an integer or [NaN]. *)
Inductive Number :=
  | Num (z : Z)
  | NaN.

(** [new Error(text + operand)] keeps the literal and the concatenated
    operand apart; [TypeError] is what the engine raises when a property
    of [null] or [undefined] is read. *)
Inductive Exn :=
  | Error (text : string) (operand : option Value)
  | TypeError.

Inductive Result (A : Type) :=
  | Return (a : A)
  | Throw (e : Exn).
Arguments Return {A} a.
Arguments Throw {A} e.

Definition bind {A B} (m : Result A) (k : A → Result B) : Result B :=
  match m with
  | Return a => k a
  | Throw e => Throw e
  end.

(** ToBoolean, the test of [if (v)]. *)
Definition ToBoolean (v : Value) : bool :=
  match v with
  | VUndefined | VNull => false
  | VBoolean b => b
  | VNumber z => negb (Z.eqb z 0)
  | VString s => negb (String.eqb s "")
  | VObject _ => true
  end.

(** Number::toString on an integer: the decimal digits, with a leading
    minus sign below zero. This is the property name under which
    [obj[number]] reads and writes. It is the engine's name for the
    integers a number holds exactly (up to 2^53 in size; the exponent form
    starts at 10^21), the MIDI note numbers among them. *)
Definition ToString (z : Z) : string :=
  NilEmpty.string_of_int (Z.to_int z).

(** StringToNumber on the name of an integer: an optional minus sign and
    decimal digits give the integer. Any other text is [NaN] here; the
    engine also reads white space, a sign, a fraction, an exponent, a
    radix prefix and [Infinity], none of which a name made by [ToString]
    has, so the function is applied to the names of integers only. *)
Definition ToNumber (s : string) : Number :=
  if String.eqb s "-" then NaN
  else match NilEmpty.int_of_string s with
       | Some d => Num (Z.of_int d)
       | None => NaN
       end.

(** [a >= b] and [a < b] with a converted left operand: a comparison with
    [NaN] is false. *)
Definition ge (a : Number) (b : Z) : bool :=
  match a with Num z => Z.leb b z | NaN => false end.

Definition lt (a : Number) (b : Z) : bool :=
  match a with Num z => Z.ltb z b | NaN => false end.

(** [a % b]: the remainder takes the sign of the dividend. *)
Definition rem (a : Number) (b : Z) : Number :=
  match a with Num z => if Z.eqb b 0 then NaN else Num (Z.rem z b) | NaN => NaN end.

(** [Math.floor(a / b)] for a positive integer divisor: on the integers
    the quotient's floor is the floor division (the double quotient of
    two integers below 2^53 rounds to the same floor). *)
Definition floor_div (a : Number) (b : Z) : Number :=
  match a with Num z => if Z.eqb b 0 then NaN else Num (z / b) | NaN => NaN end.

Definition sub (a : Number) (b : Z) : Number :=
  match a with Num z => Num (z - b) | NaN => NaN end.

(** The default comparison of [Array.prototype.sort]: the elements are
    compared as strings, code unit by code unit. *)
Definition code_unit_le (a b : string) : Prop := String.leb a b.

#[export] Instance code_unit_le_dec a b : Decision (code_unit_le a b).
Proof. unfold code_unit_le. apply _. Defined.

(** [array.sort()] with no comparator, on an array of strings. *)
Definition sort (a : list string) : list string :=
  merge_sort code_unit_le a.

(** [for (k in obj) if (obj.hasOwnProperty(k))]: the own property names.
    Every loop below either sorts them afterwards or asks only whether
    some name passes a test, so the order of enumeration does not reach a
    result. *)
Definition ownKeys {V} (obj : gmap string V) : list string :=
  (map_to_list obj).*1.

(** [s.split('.')]: the pieces between the dots; the empty string gives
    one empty piece. *)
Fixpoint split_dot (s : string) : list string :=
  match s with
  | EmptyString => [EmptyString]
  | String c s' =>
      if Ascii.eqb c "." then EmptyString :: split_dot s'
      else match split_dot s' with
           | piece :: pieces => String c piece :: pieces
           | [] => [String c EmptyString]
           end
  end.

(** The own property [k] of [v], if it has one: a property of an object;
    [length] and the indices of a string; none for a number or boolean. *)
Definition ownProperty (v : Value) (k : string) : option Value :=
  match v with
  | VObject props => props !! k
  | VString s =>
      if String.eqb k "length" then Some (VNumber (Z.of_nat (String.length s)))
      else match ToNumber k with
           | Num i =>
               if String.eqb (ToString i) k && Z.leb 0 i
               then option_map (λ c, VString (String c EmptyString))
                               (String.get (Z.to_nat i) s)
               else None
           | NaN => None
           end
  | _ => None
  end.

(** [v.hasOwnProperty(k)]: reading the method off [null] or [undefined]
    raises a TypeError. *)
Definition hasOwnProperty (v : Value) (k : string) : Result bool :=
  match v with
  | VUndefined | VNull => Throw TypeError
  | _ => Return (bool_decide (is_Some (ownProperty v k)))
  end.

(** [v[k]], read after [hasOwnProperty] has answered true. *)
Definition getProperty (v : Value) (k : string) : Value :=
  default VUndefined (ownProperty v k).

End JS.

Import JS.

Notation "'let!' x ':=' m 'in' k" := (JS.bind m (λ x, k))
(at level 10, x name, m at level 100, k at level 200).

(* ===================================================================== *)
(** ** The chord: which MIDI notes are on *)
(* ===================================================================== *)

Module Chord.

(** [this._notes]: property name (the note number as a string) to [true]. *)
Record Chord := { _notes : gmap string bool }.

(** [new Chord()] *)
Definition new : Chord := {| _notes := ∅ |}.

(** A notification [trigger(name, command, number)]. *)
Definition Event : Type := string * string * Z.

(** [noteOn(number)]: the flag [changed], the chord afterwards and the
    events fired. *)
Definition noteOn (number : Z) (this : Chord) : bool * Chord * list Event :=
  let changed := negb (bool_decide (_notes this !! ToString number = Some true)) in
  let this' := {| _notes := <[ToString number := true]> (_notes this) |} in
  (changed, this', if changed then [("change", "on", number)] else []).

(** [noteOff(number)] *)
Definition noteOff (number : Z) (this : Chord) : bool * Chord * list Event :=
  let changed := bool_decide (_notes this !! ToString number = Some true) in
  let this' := {| _notes := delete (ToString number) (_notes this) |} in
  (changed, this', if changed then [("change", "off", number)] else []).

(** [isNoteOn(number)] *)
Definition isNoteOn (number : Z) (this : Chord) : bool :=
  match _notes this !! ToString number with
  | Some b => b
  | None => false
  end.

(** [getSortedNotes()]: the property names pushed by the [for in] loop,
    then [notes_sorted.sort()]. *)
Definition getSortedNotes (this : Chord) : list string :=
  JS.sort (ownKeys (_notes this)).

(** [noteNumBelongsToClef(noteNum, clef)]: the [switch] compares [clef]
    with [===]; [noteNum] is converted by the comparison. *)
Definition noteNumBelongsToClef (noteNum : string) (clef : Value) : Result bool :=
  match clef with
  | VString c =>
      if String.eqb c "treble" then Return (JS.ge (ToNumber noteNum) 60)
      else if String.eqb c "bass" then Return (JS.lt (ToNumber noteNum) 60)
      else Throw (Error "invalid clef" None)
  | _ => Throw (Error "invalid clef" None)
  end.

(** The loop of [mapNotes] from index [i] on: [mapped_notes] and [wanted]
    are the variables of the method. *)
Fixpoint mapNotes_loop {A} (callback : string → A) (clef : Value)
    (mapped_notes : list A) (wanted : bool) (notes_sorted : list string)
    : Result (list A) :=
  match notes_sorted with
  | [] => Return mapped_notes
  | note_num :: rest =>
      let! wanted' := (if ToBoolean clef then noteNumBelongsToClef note_num clef
                       else Return wanted) in
      mapNotes_loop callback clef
        (if wanted' then mapped_notes ++ [callback note_num] else mapped_notes)
        wanted' rest
  end.

(** [mapNotes(callback, clef)] *)
Definition mapNotes {A} (callback : string → A) (clef : Value) (this : Chord)
    : Result (list A) :=
  mapNotes_loop callback clef [] true (getSortedNotes this).

(** The [for in] loop of [hasNotes]. *)
Fixpoint hasNotes_loop (clef : Value) (names : list string) : Result bool :=
  match names with
  | [] => Return false
  | note_num :: rest =>
      if ToBoolean clef then
        let! belongs := noteNumBelongsToClef note_num clef in
        if belongs then Return true else hasNotes_loop clef rest
      else Return true
  end.

(** [hasNotes(clef)] *)
Definition hasNotes (clef : Value) (this : Chord) : Result bool :=
  hasNotes_loop clef (ownKeys (_notes this)).

(** [getNoteNumbers(clef)] *)
Definition getNoteNumbers (clef : Value) (this : Chord) : Result (list string) :=
  mapNotes (λ noteNum, noteNum) clef this.

(** [getNotes(clef)] *)
Definition getNotes (clef : Value) (this : Chord) : Result (list string) :=
  getNoteNumbers clef this.

(** The object literal built by the callback of [getNotePitches]. *)
Record Pitch := { pitchClass : Number; octave : Number }.

Definition notePitch (noteNum : string) : Pitch :=
  {| pitchClass := JS.rem (ToNumber noteNum) 12;
     octave := JS.sub (JS.floor_div (ToNumber noteNum) 12) 1 |}.

(** [getNotePitches(clef)] *)
Definition getNotePitches (clef : Value) (this : Chord) : Result (list Pitch) :=
  mapNotes notePitch clef this.

(** A command sent to the chord, and the run of a sequence of commands:
    the chord afterwards, the flags returned and the events fired, in
    order. *)
Inductive Call :=
  | NoteOn (number : Z)
  | NoteOff (number : Z).

Definition call (c : Call) (this : Chord) : bool * Chord * list Event :=
  match c with
  | NoteOn number => noteOn number this
  | NoteOff number => noteOff number this
  end.

Fixpoint run (calls : list Call) (this : Chord) : Chord * list bool * list Event :=
  match calls with
  | [] => (this, [], [])
  | c :: rest =>
      let '(changed, this', fired) := call c this in
      let '(this'', flags, fired') := run rest this' in
      (this'', changed :: flags, fired ++ fired')
  end.

(** The chord after a sequence of commands on [new Chord()]. *)
Definition after (calls : list Call) : Chord := (run calls new).1.1.

Definition number_of (c : Call) : Z :=
  match c with NoteOn number | NoteOff number => number end.

End Chord.

(* ===================================================================== *)
(** ** The configuration reader *)
(* ===================================================================== *)

Module Config.

(** The object [Config]: its private cache [__config], the tree built
    from the configuration modules. *)
Record Config := { __config : Value }.

(** The callback of [_.each(key.split('.'), ...)], run over the pieces
    that are left; [config] is the local variable it reassigns. *)
Fixpoint get_each (key : string) (config : Value) (pieces : list string)
    : Result Value :=
  match pieces with
  | [] => Return config
  | value :: rest =>
      let! has := hasOwnProperty config value in
      if has then get_each key (getProperty config value) rest
      else Throw (Error "Key not found: " (Some (VString key)))
  end.

(** [get(key)]: the outcome and the object afterwards. *)
Definition get (key : Value) (this : Config) : Result Value * Config :=
  match key with
  | VString k => (get_each k (__config this) (split_dot k), this)
  | _ => (Throw (Error "Config key must be a string: " (Some key)), this)
  end.

(** [set(key, value)] *)
Definition set (key value : Value) (this : Config) : Result Value * Config :=
  (Throw (Error "config is read-only" None), this).

(** A call through the public interface and the run of a sequence of
    calls: the outcomes in order and the object afterwards. *)
Inductive Call :=
  | CallGet (key : Value)
  | CallSet (key value : Value).

Definition call (c : Call) (this : Config) : Result Value * Config :=
  match c with
  | CallGet key => get key this
  | CallSet key value => set key value this
  end.

Fixpoint run (calls : list Call) (this : Config) : list (Result Value) * Config :=
  match calls with
  | [] => ([], this)
  | c :: rest =>
      let '(r, this') := call c this in
      let '(rs, this'') := run rest this' in
      (r :: rs, this'')
  end.





End Config.

(* ===================================================================== *)
(** ** The stave notaters *)
(* ===================================================================== *)

Module StaveNotater.

(** What the notater reads off its collaborators: the stave's
    [getStartX()], [getTopY()], [getBottomY()] and [isFirstBar()], the
    key signature's [getKeyShortName()]. *)
Record Stave := {
  getStartX : Z;
  getTopY : Z;
  getBottomY : Z;
  isFirstBar : bool
}.

Record KeySignature := { getKeyShortName : string }.

(** [analyzeConfig.mode]: one flag per kind of annotation. *)
Record Mode := {
  note_names : Value;
  helmholtz : Value;
  scale_degrees : Value;
  solfege : Value;
  intervals : Value;
  roman_numerals : Value
}.

Record AnalyzeConfig := {
  enabled : Value;
  tempo : Value;
  mode : Mode
}.

(** The object handed to the constructor; [None] is a property the
    object does not have. *)
Module config.
Record t := {
  stave : option Stave;
  keySignature : option KeySignature;
  analyzeConfig : option AnalyzeConfig;
  chord : option Chord.Chord
}.
End config.

(** Which prototype the object has. *)
Inductive Kind := TrebleStaveNotater | BassStaveNotater.

Record Notater := {
  kind : Kind;
  stave : Stave;
  keySignature : KeySignature;
  analyzeConfig : AnalyzeConfig;
  chord : option Chord.Chord
}.

(** [margin] *)
Definition margin_top : Z := 25.
Definition margin_bottom : Z := 25.

(** [initConfig()], called by [init(config)]: the three required
    properties in the order of the list, then the optional chord. *)
Definition init (k : Kind) (c : config.t) : Result Notater :=
  match config.stave c with
  | None => Throw (Error "missing required config property: " (Some (VString "stave")))
  | Some s =>
      match config.keySignature c with
      | None => Throw (Error "missing required config property: "
                             (Some (VString "keySignature")))
      | Some ks =>
          match config.analyzeConfig c with
          | None => Throw (Error "missing required config property: "
                                 (Some (VString "analyzeConfig")))
          | Some ac =>
              Return {| kind := k; stave := s; keySignature := ks;
                        analyzeConfig := ac; chord := config.chord c |}
          end
      end
  end.

(** [StaveNotater.create(clef, config)] *)
Definition create (clef : Value) (c : config.t) : Result Notater :=
  match clef with
  | VString name =>
      if String.eqb name "treble" then init TrebleStaveNotater c
      else if String.eqb name "bass" then init BassStaveNotater c
      else Throw (Error "no such notater for clef: " (Some clef))
  | _ => Throw (Error "no such notater for clef: " (Some clef))
  end.

(** What a notater does to the canvas: the context calls of [notate] and
    the draw methods it invokes, each with its position. The text a draw
    method writes comes from the analyzer ([app/util/analyze]); the
    method is the only place where that kind of annotation is written. *)
Inductive Action :=
  | save
  | font (f : string)
  | restore
  | drawNoteName (x y : Z)
  | drawHelmholtz (x y : Z)
  | drawSolfege (x y : Z)
  | drawScaleDegree (x y : Z)
  | drawRoman (x y : Z)
  | drawInterval (x y : Z)
  | drawMetronomeMark (x y : Z)
  | drawKeyName (x y : Z).

Definition getFont : string := "14px Georgia, serif".

Definition getX (this : Notater) : Z := getStartX (stave this) + 10.

Definition getY (this : Notater) : Z :=
  match kind this with
  | TrebleStaveNotater => getTopY (stave this) - margin_top
  | BassStaveNotater => getBottomY (stave this) + margin_bottom
  end.

Definition isAnalyzerEnabled (this : Notater) : bool :=
  ToBoolean (enabled (analyzeConfig this)).

(** [TrebleStaveNotater.prototype.notateChord], on the chord [c] that
    [this.chord] holds. *)
Definition notateChord_treble (this : Notater) (c : Chord.Chord)
    : Result (list Action) :=
  let x := getX this in
  let y := getY this in
  let! notes := Chord.getNoteNumbers VUndefined c in
  let first_row := y in
  let second_row := y + 25 in
  let mode := mode (analyzeConfig this) in
  if (length notes =? 1)%nat then
    Return (
      (if ToBoolean (scale_degrees mode) && negb (ToBoolean (solfege mode))
       then [drawScaleDegree x first_row]
       else if ToBoolean (solfege mode) && negb (ToBoolean (scale_degrees mode))
       then [drawSolfege x first_row]
       else [])
      ++
      (if ToBoolean (note_names mode) && negb (ToBoolean (helmholtz mode))
       then [drawNoteName x second_row]
       else if ToBoolean (helmholtz mode) && negb (ToBoolean (note_names mode))
       then [drawHelmholtz x second_row]
       else []))
  else Return [].

(** [BassStaveNotater.prototype.notateChord] *)
Definition notateChord_bass (this : Notater) (c : Chord.Chord)
    : Result (list Action) :=
  let x := getX this in
  let y := getY this in
  let! notes := Chord.getNoteNumbers VUndefined c in
  let num_notes := length notes in
  let mode := mode (analyzeConfig this) in
  if (num_notes =? 2)%nat then
    Return (if ToBoolean (intervals mode) then [drawInterval x y] else [])
  else if (2 <? num_notes)%nat then
    Return (if ToBoolean (roman_numerals mode) then [drawRoman x y] else [])
  else Return [].

(** [this.notateChord()], dispatched on the prototype. *)
Definition notateChord (this : Notater) (c : Chord.Chord) : Result (list Action) :=
  match kind this with
  | TrebleStaveNotater => notateChord_treble this c
  | BassStaveNotater => notateChord_bass this c
  end.

(** [this.notateStave()] *)
Definition notateStave (this : Notater) : list Action :=
  let x := getX this in
  let y := getY this in
  if isFirstBar (stave this) then
    match kind this with
    | TrebleStaveNotater => [drawMetronomeMark x y]
    | BassStaveNotater => [drawKeyName x y]
    end
  else [].

(** [notate()] *)
Definition notate (this : Notater) : Result (list Action) :=
  let before := [save; font getFont] ++ notateStave this in
  let! drawn :=
    (if isAnalyzerEnabled this then
       match chord this with
       | Some c => notateChord this c
       | None => Return []
       end
     else Return []) in
  Return (before ++ drawn ++ [restore]).

(** The kinds of annotation, by the draw method that writes them. *)
Definition single_note_annotation (a : Action) : bool :=
  match a with
  | drawScaleDegree _ _ | drawSolfege _ _ | drawNoteName _ _
  | drawHelmholtz _ _ => true
  | _ => false
  end.

Definition interval_annotation (a : Action) : bool :=
  match a with drawInterval _ _ => true | _ => false end.

Definition roman_annotation (a : Action) : bool :=
  match a with drawRoman _ _ => true | _ => false end.

End StaveNotater.

(* ===================================================================== *)
(** ** The piano keys of the on-screen keyboard *)
(* ===================================================================== *)

Module PianoKey.

Definition STATE_KEYUP : string := "off".
Definition STATE_KEYDN : string := "on".
Definition SUSTAIN_ON : string := "on".
Definition SUSTAIN_OFF : string := "off".
Definition COLOR_BLACK_KEYUP : string := "90-hsl(0,0,25)-hsl(0,0,0)".
Definition COLOR_WHITE_KEYUP : string := "#fffff0".
Definition COLOR_KEYDN : string := "hsl(0,0,60)".
Definition COLOR_KEYSUSTAIN : string := "90-hsla(0, 30, 40)-hsl(0,45,20)".

(** The two colour maps live on the prototype: every key of one colour
    reads and writes the same pair. *)
Record Prototype := {
  keyColorMap : gmap string string;
  defaultKeyColorMap : gmap string string
}.

(** The fields of one key; [fill] is the attribute of its element. *)
Record Key := {
  state : string;
  sustain : string;
  noteNumber : Z;
  fill : option string
}.

(** A key together with the prototype it shares. *)
Definition World : Type := Prototype * Key.

(** [keyboard.trigger(name, state, noteNumber)] *)
Definition Event : Type := string * string * Z.

Definition WhitePianoKey_prototype : Prototype :=
  let map := <[STATE_KEYDN := COLOR_KEYDN]> (<[STATE_KEYUP := COLOR_WHITE_KEYUP]> ∅) in
  {| keyColorMap := map; defaultKeyColorMap := map |}.

Definition BlackPianoKey_prototype : Prototype :=
  let map := <[STATE_KEYDN := COLOR_KEYDN]> (<[STATE_KEYUP := COLOR_BLACK_KEYUP]> ∅) in
  {| keyColorMap := map; defaultKeyColorMap := map |}.

(** [init(config)]: [None] is a config without [noteNumber]. The fields
    [state] and [sustain] start at the values of the mixin. *)
Definition init (config_noteNumber : option Z) : Result Key :=
  match config_noteNumber with
  | None => Throw (Error "Key must have a MIDI note number" None)
  | Some n => Return {| state := STATE_KEYUP; sustain := SUSTAIN_OFF;
                        noteNumber := n; fill := None |}
  end.

Definition set_state (s : string) (k : Key) : Key :=
  {| state := s; sustain := sustain k; noteNumber := noteNumber k; fill := fill k |}.

Definition set_sustain (s : string) (k : Key) : Key :=
  {| state := state k; sustain := s; noteNumber := noteNumber k; fill := fill k |}.

(** [updateColor()] *)
Definition updateColor (w : World) : World :=
  let '(p, k) := w in
  (p, {| state := state k; sustain := sustain k; noteNumber := noteNumber k;
         fill := keyColorMap p !! state k |}).

(** [setColor(keyState, color)] *)
Definition setColor (keyState color : string) (w : World) : World :=
  let '(p, k) := w in
  ({| keyColorMap := <[keyState := color]> (keyColorMap p);
      defaultKeyColorMap := defaultKeyColorMap p |}, k).

(** [revertColor(keyState)]: a state without a default colour reads as
    [undefined] afterwards. *)
Definition revertColor (keyState : string) (w : World) : World :=
  let '(p, k) := w in
  ({| keyColorMap :=
        match defaultKeyColorMap p !! keyState with
        | Some color => <[keyState := color]> (keyColorMap p)
        | None => delete keyState (keyColorMap p)
        end;
      defaultKeyColorMap := defaultKeyColorMap p |}, k).

Definition isPressed (k : Key) : bool := String.eqb (state k) STATE_KEYDN.

Definition isReleased (k : Key) : bool := String.eqb (state k) STATE_KEYUP.

(** [press()] *)
Definition press (w : World) : World :=
  let '(p, k) := w in
  updateColor (p, set_state STATE_KEYDN k).

(** [release()] *)
Definition release (w : World) : World :=
  let w1 :=
    if String.eqb (sustain w.2) SUSTAIN_ON then setColor STATE_KEYUP COLOR_KEYSUSTAIN w
    else if String.eqb (sustain w.2) SUSTAIN_OFF then revertColor STATE_KEYUP w
    else revertColor STATE_KEYUP w in
  let '(p, k) := w1 in
  updateColor (p, set_state STATE_KEYUP k).

(** [clear()] *)
Definition clear (w : World) : World :=
  let '(p, k) := revertColor STATE_KEYUP w in
  updateColor (p, set_state STATE_KEYUP k).

(** [setSustain(state)] *)
Definition setSustain (state : Value) (w : World) : World :=
  let '(p, k) := w in
  if ToBoolean state then
    let k1 := set_sustain SUSTAIN_ON k in
    if isPressed k1 then (p, set_sustain SUSTAIN_ON k1) else (p, k1)
  else
    let k1 := set_sustain SUSTAIN_OFF k in
    if isReleased k1 then release (p, k1) else (p, k1).

(** [onPress(e)]: the world afterwards and the events triggered on the
    keyboard. *)
Definition onPress (w : World) : World * list Event :=
  if isReleased w.2 then
    let w' := press w in
    (w', [("key", state w'.2, noteNumber w'.2)])
  else (w, []).

(** [onRelease(e)] *)
Definition onRelease (w : World) : World * list Event :=
  if isPressed w.2 then
    let w' := release w in
    (w', [("key", state w'.2, noteNumber w'.2)])
  else (w, []).

(** What can happen to a key: the two mouse handlers, and the methods
    the keyboard calls on it. *)
Inductive Method :=
  | OnPress
  | OnRelease
  | Press
  | Release
  | Clear
  | SetSustain (state : Value).

Definition step (m : Method) (w : World) : World * list Event :=
  match m with
  | OnPress => onPress w
  | OnRelease => onRelease w
  | Press => (press w, [])
  | Release => (release w, [])
  | Clear => (clear w, [])
  | SetSustain v => (setSustain v w, [])
  end.

Fixpoint run (ms : list Method) (w : World) : World * list Event :=
  match ms with
  | [] => (w, [])
  | m :: rest =>
      let '(w', fired) := step m w in
      let '(w'', fired') := run rest w' in
      (w'', fired ++ fired')
  end.

Definition is_handler (m : Method) : bool :=
  match m with OnPress | OnRelease => true | _ => false end.

(** Consecutive events carry different states. *)
Fixpoint alternates (events : list Event) : Prop :=
  match events with
  | e1 :: ((e2 :: _) as rest) => e1.1.2 ≠ e2.1.2 ∧ alternates rest
  | _ => True
  end.

End PianoKey.

(* ===================================================================== *)
(** ** The vocabulary of the specification *)
(* ===================================================================== *)

Module Spec.

Import Chord.

(** [a] comes before or with [b] when both are read as numbers. *)
Definition numeric_le (a b : string) : Prop :=
  match ToNumber a, ToNumber b with
  | Num x, Num y => x ≤ y
  | _, _ => False
  end.

#[export] Instance numeric_le_dec a b : Decision (numeric_le a b).
Proof. unfold numeric_le. destruct (ToNumber a), (ToNumber b); apply _. Defined.

(** How many of the calls were made for [id]. *)
Definition calls_for (id : Z) (calls : list Call) : nat :=
  length (filter (λ c, number_of c = id) calls).

(** How many of the calls made for [id] reported a change; [flags] are
    the values the calls returned. *)
Fixpoint changes_for (id : Z) (calls : list Call) (flags : list bool) : nat :=
  match calls, flags with
  | c :: calls', changed :: flags' =>
      (if bool_decide (number_of c = id) && changed then 1 else 0)%nat
      + changes_for id calls' flags'
  | _, _ => 0%nat
  end.

(** Whether the last call made for [id] was a [noteOn]; [false] when no
    call was made for it. *)
Fixpoint last_call_on (id : Z) (calls : list Call) (sofar : bool) : bool :=
  match calls with
  | [] => sofar
  | NoteOn n :: rest => last_call_on id rest (if bool_decide (n = id) then true else sofar)
  | NoteOff n :: rest => last_call_on id rest (if bool_decide (n = id) then false else sofar)
  end.

(** Every property name of a chord built by [noteOn] and [noteOff] is the
    name of an integer and holds [true]. *)
Definition note_names_only (this : Chord) : Prop :=
  ∀ k b, _notes this !! k = Some b → b = true ∧ ∃ id : Z, k = ToString id.

End Spec.

(* ===================================================================== *)
(** ** The stave notaters: lines of text *)
(* ===================================================================== *)

Module StaveNotaterText.

(** A call [ctx.fillText(text, x, y)]. *)
Definition FillText : Type := string * Z * Z.

(** [textLineHeight] *)
Definition textLineHeight : Z := 15.

(** The loop of [drawTextLines] from index [i] on. *)
Fixpoint drawTextLines_loop (lines : list string) (x y i : Z) : list FillText :=
  match lines with
  | [] => []
  | line :: rest =>
      let line_y := y + i * textLineHeight in
      (line, x, line_y) :: drawTextLines_loop rest x y (i + 1)
  end.

(** [drawTextLines(lines, x, y)] *)
Definition drawTextLines (lines : list string) (x y : Z) : list FillText :=
  drawTextLines_loop lines x y 0.

End StaveNotaterText.

(* ===================================================================== *)
(** ** The MIDI router *)
(* ===================================================================== *)

Module MIDIRouter.

(** The command numbers of the Jazz Midi Bridge ([JMB.NOTE_ON], ...); the
    module is not among the sources, so they are taken as given. *)
Record JazzMidiBridge := {
  NOTE_ON : Z;
  NOTE_OFF : Z;
  CONTROL_CHANGE : Z;
  PROGRAM_CHANGE : Z
}.

(** A device of [enumerateOutputs()] or [enumerateInputs()], by its name. *)
Definition Device : Type := string.

(** [midiAccess.createMIDIMessage(command, data1, data2, channel)]: the
    message is known by the four arguments it was made from; an argument
    that is not passed is [undefined]. *)
Record MIDIMessage := {
  command : Value;
  data1 : Value;
  data2 : Value;
  channel : Value
}.

(** [defaults] *)
Record Defaults := {
  outputIndex : nat;
  inputIndex : nat;
  instrumentNum : Z
}.

(** The fields of the router that its methods read or write, apart from
    [midiAccess], which [MIDIRouterMethods] adds. *)
Record Router := {
  this_channel : Z;
  program : Z;
  outputDevices : list Device;
  inputDevices : list Device;
  output : option Device;
  input : option Device;
  defaults : Defaults
}.

(** [new MIDIRouter()]: the values of the prototype. *)
Definition new : Router :=
  {| this_channel := 0; program := 0; outputDevices := []; inputDevices := [];
     output := None; input := None;
     defaults := {| outputIndex := 0; inputIndex := 0; instrumentNum := 0 |} |}.

(** What a method does to the outside: a message sent to a device, an
    event triggered on the event bus or on the router itself, a handler
    bound to the event bus or to a device. *)
Inductive Effect :=
  | sendMIDIMessage (device : Device) (m : MIDIMessage)
  | eventBus_trigger (name : string) (args : list Value)
  | trigger_devices (inputs outputs : list Device)
  | eventBus_bind (name handler : string)
  | addEventListener (device : Device) (type handler : string).

(** [v === z] for a number [z]. *)
Definition is_number (v : Value) (z : Z) : bool :=
  match v with VNumber z' => Z.eqb z' z | _ => false end.

(** [detectDevices()], with what [enumerateOutputs() || []] and
    [enumerateInputs() || []] gave. *)
Definition detectDevices (outputs inputs : list Device) (this : Router)
    : Router * list Effect :=
  ({| this_channel := this_channel this; program := program this;
      outputDevices := outputs; inputDevices := inputs;
      output := output this; input := input this; defaults := defaults this |},
   [trigger_devices inputs outputs]).

(** [selectDefaultDevices()]: [outputs[i]] past the end is [undefined]. *)
Definition selectDefaultDevices (this : Router) : Router :=
  let outputs := outputDevices this in
  let inputs := inputDevices this in
  let output' :=
    if (0 <? length outputs)%nat then outputs !! outputIndex (defaults this)
    else output this in
  let input' :=
    if (0 <? length inputs)%nat then inputs !! inputIndex (defaults this)
    else input this in
  {| this_channel := this_channel this; program := program this;
     outputDevices := outputs; inputDevices := inputs;
     output := output'; input := input'; defaults := defaults this |}.

(** [initListeners()] *)
Definition initListeners (this : Router) : list Effect :=
  [eventBus_bind "note:output" "onNoteOutput";
   eventBus_bind "pedal" "onPedalChange";
   eventBus_bind "instrument" "onChangeInstrument"]
  ++ match input this with
     | Some device => [addEventListener device "midimessage" "onNoteInput"]
     | None => []
     end.

(** [onJMBInit(MIDIAccess)], with the devices the access object lists. *)
Definition onJMBInit (outputs inputs : list Device) (this : Router)
    : Router * list Effect :=
  let '(this1, fired) := detectDevices outputs inputs this in
  let this2 := selectDefaultDevices this1 in
  (this2, fired ++ initListeners this2).

(** What [onNoteInput(msg)] does once [this.midiAccess] is set, as it is
    on every router that [onJMBInit] has run on; [msg] has the fields
    [command], [data1], [data2]. [MIDIRouterMethods.onNoteInput] is the
    method on any router. *)
Definition onNoteInput (JMB : JazzMidiBridge) (msg : MIDIMessage) (this : Router)
    : list Effect :=
  let m := {| command := command msg; data1 := data1 msg; data2 := data2 msg;
              channel := VNumber (this_channel this) |} in
  (match output this with
   | Some device => [sendMIDIMessage device m]
   | None => []
   end)
  ++
  (if is_number (command msg) (NOTE_ON JMB) || is_number (command msg) (NOTE_OFF JMB)
   then
     let noteState := if is_number (command msg) (NOTE_ON JMB) then "on" else "off" in
     let noteNumber := data1 msg in
     let noteVelocity := data2 msg in
     [eventBus_trigger "note:render" [VString noteState; noteNumber; noteVelocity];
      eventBus_trigger "note:input" [VString noteState; noteNumber; noteVelocity]]
   else []).

(** [onNoteOutput(noteState, noteNumber, noteVelocity)]: calling
    [sendMIDIMessage] on the [null] output raises a TypeError. An output is
    selected only by [onJMBInit], after it has stored [midiAccess]; on a
    router without [midiAccess] there is no output, and the method raises
    a TypeError there as well. [MIDIRouterMethods.onNoteOutput] is the
    method with [midiAccess] spelled out. *)
Definition onNoteOutput (JMB : JazzMidiBridge) (noteState noteNumber noteVelocity : Value)
    (this : Router) : Result (list Effect) :=
  let midiCommand :=
    match noteState with
    | VString s => if String.eqb s "on" then NOTE_ON JMB else NOTE_OFF JMB
    | _ => NOTE_OFF JMB
    end in
  let noteVelocity := if ToBoolean noteVelocity then noteVelocity else VNumber 100 in
  let midiMessage := {| command := VNumber midiCommand; data1 := noteNumber;
                        data2 := noteVelocity; channel := VUndefined |} in
  match output this with
  | None => Throw TypeError
  | Some device =>
      Return [sendMIDIMessage device midiMessage;
              eventBus_trigger "note:render" [noteState; noteNumber; noteVelocity]]
  end.

(** The messages among the effects. *)
Definition sent (effects : list Effect) : list MIDIMessage :=
  omap (λ e, match e with sendMIDIMessage _ m => Some m | _ => None end) effects.

(** The events triggered on the event bus among the effects. *)
Definition triggered (effects : list Effect) : list (string * list Value) :=
  omap (λ e, match e with eventBus_trigger n a => Some (n, a) | _ => None end) effects.

End MIDIRouter.

(* ===================================================================== *)
(** ** The MIDI router: the methods with [midiAccess] *)
(* ===================================================================== *)

Module MIDIRouterMethods.

Import MIDIRouter.

(** [this]: whether [this.midiAccess] holds the access object ([null] on
    the prototype, set by [onJMBInit]), and the other fields. *)
Record This := {
  midiAccess : bool;
  router : Router
}.

(** [new MIDIRouter()] *)
Definition new : This := {| midiAccess := false; router := MIDIRouter.new |}.

(** [onJMBInit(MIDIAccess)]: stores the access object, then detects and
    selects the devices and installs the listeners. *)
Definition onJMBInit (outputs inputs : list Device) (this : This)
    : This * list Effect :=
  let '(r, fired) := MIDIRouter.onJMBInit outputs inputs (router this) in
  ({| midiAccess := true; router := r |}, fired).

(** [this.midiAccess.createMIDIMessage(command, data1, data2, channel)]:
    a TypeError while [midiAccess] is [null]. *)
Definition createMIDIMessage (this : This) (command data1 data2 channel : Value)
    : Result MIDIMessage :=
  if midiAccess this
  then Return {| command := command; data1 := data1; data2 := data2;
                 channel := channel |}
  else Throw TypeError.

(** [if (output) { output.sendMIDIMessage(m); }] *)
Definition send_if_output (this : This) (m : MIDIMessage) : list Effect :=
  match output (router this) with
  | Some device => [sendMIDIMessage device m]
  | None => []
  end.

(** [onNoteInput(msg)] *)
Definition onNoteInput (JMB : JazzMidiBridge) (msg : MIDIMessage) (this : This)
    : Result (list Effect) :=
  let! m := createMIDIMessage this (command msg) (data1 msg) (data2 msg)
              (VNumber (this_channel (router this))) in
  Return
    (send_if_output this m
     ++
     (if is_number (command msg) (NOTE_ON JMB) || is_number (command msg) (NOTE_OFF JMB)
      then
        let noteState := if is_number (command msg) (NOTE_ON JMB) then "on" else "off" in
        let noteNumber := data1 msg in
        let noteVelocity := data2 msg in
        [eventBus_trigger "note:render" [VString noteState; noteNumber; noteVelocity];
         eventBus_trigger "note:input" [VString noteState; noteNumber; noteVelocity]]
      else [])).

(** The literal [controlNumberOf] read at one of its keys; [None] for any
    other name, where the read goes on to the prototype of the literal
    and is not followed here. *)
Definition controlNumberOf (pedal : string) : option Z :=
  if String.eqb pedal "sustain" then Some 64
  else if String.eqb pedal "sostenuto" then Some 66
  else if String.eqb pedal "soft" then Some 67
  else None.

(** The literal [controlValueOf] read at one of its keys, likewise. *)
Definition controlValueOf (state : string) : option Z :=
  if String.eqb state "on" then Some 127
  else if String.eqb state "off" then Some 0
  else None.

(** [onPedalChange(pedal, state)] for a pedal and a state that are keys of
    the two literals; [None] for other names. *)
Definition onPedalChange (JMB : JazzMidiBridge) (pedal state : string) (this : This)
    : option (Result (list Effect)) :=
  match controlNumberOf pedal, controlValueOf state with
  | Some controlNumber, Some controlValue =>
      Some (let! msg := createMIDIMessage this (VNumber (CONTROL_CHANGE JMB))
                          (VNumber controlNumber) (VNumber controlValue)
                          (VNumber (this_channel (router this))) in
            Return (send_if_output this msg))
  | _, _ => None
  end.

(** [onChangeInstrument(instrumentName)]; [numberOf] is
    [midiInstruments.numberOf]. *)
Definition onChangeInstrument (JMB : JazzMidiBridge) (numberOf : string → Z)
    (instrumentName : string) (this : This) : Result (list Effect) :=
  let number := numberOf instrumentName in
  let number :=
    if number <? 0 then instrumentNum (defaults (router this)) else number in
  let! msg := createMIDIMessage this (VNumber (PROGRAM_CHANGE JMB))
                (VNumber number) (VNumber 0)
                (VNumber (this_channel (router this))) in
  Return (send_if_output this msg).

(** [onNoteOutput(noteState, noteNumber, noteVelocity)] *)
Definition onNoteOutput (JMB : JazzMidiBridge) (noteState noteNumber noteVelocity : Value)
    (this : This) : Result (list Effect) :=
  let midiCommand :=
    match noteState with
    | VString s => if String.eqb s "on" then NOTE_ON JMB else NOTE_OFF JMB
    | _ => NOTE_OFF JMB
    end in
  let noteVelocity := if ToBoolean noteVelocity then noteVelocity else VNumber 100 in
  let! midiMessage := createMIDIMessage this (VNumber midiCommand) noteNumber
                        noteVelocity VUndefined in
  match output (router this) with
  | None => Throw TypeError
  | Some device =>
      Return [sendMIDIMessage device midiMessage;
              eventBus_trigger "note:render" [noteState; noteNumber; noteVelocity]]
  end.

(** The pedal and the state a control change stands for. *)
Definition pedals : list string := ["sustain"; "sostenuto"; "soft"].
Definition pedal_states : list string := ["on"; "off"].

End MIDIRouterMethods.

(* ===================================================================== *)
(** ** The analysis widget *)
(* ===================================================================== *)

Module AnalyzeWidget.

(** [s.indexOf(c)] for a one-character [c]: the first position, or -1. *)
Fixpoint indexOf (c : ascii) (s : string) : Z :=
  match s with
  | EmptyString => -1
  | String a s' =>
      if Ascii.eqb a c then 0
      else let i := indexOf c s' in if i <? 0 then -1 else i + 1
  end.

(** [s.substr(start, length)]; [None] is a length that is not passed. A
    negative start counts from the end, the length is cut to what is
    left. *)
Definition substr (s : string) (start : Z) (length : option Z) : string :=
  let size := Z.of_nat (String.length s) in
  let intStart := if start <? 0 then Z.max (size + start) 0 else Z.min start size in
  let intLength := match length with
                   | None => size
                   | Some l => Z.min (Z.max l 0) size
                   end in
  let intEnd := Z.min (intStart + intLength) size in
  if intEnd <=? intStart then EmptyString
  else String.substring (Z.to_nat intStart) (Z.to_nat (intEnd - intStart)) s.

(** An entry of [ITEMS]. *)
Record Item := { label : string; value : string }.

(** [ITEMS[0].items]: the groups of options under 'Analyze'. *)
Definition items : list (list Item) :=
  [ [ {| label := "Note names"; value := "analyze.note_names" |};
      {| label := "Helmholtz"; value := "analyze.helmholtz" |} ];
    [ {| label := "Scale degrees"; value := "analyze.scale_degrees" |};
      {| label := "Solfege"; value := "analyze.solfege" |} ];
    [ {| label := "Intervals"; value := "analyze.intervals" |} ];
    [ {| label := "Roman numerals"; value := "analyze.roman_numerals" |} ] ].

(** [this.state]: the flag [enabled] and the object [mode]. *)
Record State := {
  enabled : Value;
  mode : gmap string Value
}.

(** The events the widget triggers. *)
Inductive Event :=
  | changeCategory (val : string) (checked : bool)
  | changeOption (category option : string) (checked : bool).

(** [parseValue(val)]: the pair of [category] and [option]. *)
Definition parseValue (val : string) : string * string :=
  let valDot := indexOf "." val in
  let valCat := substr val 0 (Some valDot) in
  let valOpt := substr val (valDot + 1) None in
  (valCat, valOpt).

(** The two loops of [uncheckRelated] that look for the group of [value]:
    [group] is the variable they assign. *)
Fixpoint find_group (items : list (list Item)) (value0 : string) (group : list Item)
    : list Item :=
  match items with
  | [] => group
  | items_i :: rest =>
      find_group rest value0
        (if existsb (λ item, String.eqb (value item) value0) items_i
         then items_i else group)
  end.

(** The callback of [_.each(group, ...)] in [uncheckRelated], over the
    items that are left. *)
Fixpoint uncheck_each (value0 : string) (group : list Item) (this : State)
    : State * list Event :=
  match group with
  | [] => (this, [])
  | related :: rest =>
      if negb (String.eqb (value related) value0) then
        let parsed_val := parseValue (value related) in
        let this' := {| enabled := enabled this;
                        mode := <[parsed_val.2 := VBoolean false]> (mode this) |} in
        let '(this'', fired) := uncheck_each value0 rest this' in
        (this'', changeOption parsed_val.1 parsed_val.2 false :: fired)
      else uncheck_each value0 rest this
  end.

(** [uncheckRelated(target)], for the value of the target. The attributes
    it sets on the page are not part of the state. *)
Definition uncheckRelated (value0 : string) (this : State) : State * list Event :=
  uncheck_each value0 (find_group items value0 []) this.

(** The handler of 'change' installed by [initListeners], for the value
    and the checked flag read off the target. *)
Definition onChange (val : string) (checked : bool) (this : State)
    : State * list Event :=
  if indexOf "." val =? -1 then
    ({| enabled := VBoolean checked; mode := mode this |},
     [changeCategory val checked])
  else
    let parsed_val := parseValue val in
    let this' := {| enabled := enabled this;
                    mode := <[parsed_val.2 := VBoolean checked]> (mode this) |} in
    let '(this'', fired) := uncheckRelated val this' in
    (this'', changeOption parsed_val.1 parsed_val.2 checked :: fired).

(** A sequence of changes, each a value and a checked flag. *)
Fixpoint run (changes : list (string * bool)) (this : State) : State * list Event :=
  match changes with
  | [] => (this, [])
  | (val, checked) :: rest =>
      let '(this', fired) := onChange val checked this in
      let '(this'', fired') := run rest this' in
      (this'', fired ++ fired')
  end.

(** [mode[option]] read as a condition. *)
Definition is_set (option : string) (this : State) : bool :=
  match mode this !! option with
  | Some v => ToBoolean v
  | None => false
  end.

(** The values of the checkboxes the widget renders. *)
Definition values : list string :=
  "analyze" :: map value (concat items).

(** No two options of one group are set. *)
Definition exclusive (this : State) : Prop :=
  (is_set "note_names" this && is_set "helmholtz" this = false)
  ∧ (is_set "scale_degrees" this && is_set "solfege" this = false).

End AnalyzeWidget.

(* ===================================================================== *)
(** ** The widget with the Analyze and Highlight checkboxes *)
(* ===================================================================== *)

Module HighlightWidget.

Import AnalyzeWidget.

(** The values of [ITEMS] with the number of [ul] children their list
    item has: 'highlight' has a list of four options, the others none. *)
Definition rendered : list (string * nat) :=
  [("analyze", 0%nat); ("highlight", 1%nat); ("highlight.roots", 0%nat);
   ("highlight.tritones", 0%nat); ("highlight.doubles", 0%nat);
   ("highlight.octaves", 0%nat)].

(** The handler of 'change' installed by [initListeners], for the value
    and the checked flag read off the target and the number of [ul]
    children of the list item ([$children.length]). *)
Definition onChange (val : string) (checked : bool) (children_length : nat)
    : list Event :=
  if (0 <? children_length)%nat then [changeCategory val checked]
  else
    let valDot := indexOf "." val in
    let valCat := substr val 0 (Some valDot) in
    let valOpt := substr val (valDot + 1) None in
    [changeOption valCat valOpt checked].

End HighlightWidget.

(* ===================================================================== *)
(** ** The vocabulary of the further properties *)
(* ===================================================================== *)

Module Vocabulary.

Import Chord.

(** The commands ('on', 'off') of the events fired for [id], in order. *)
Definition commands_for (id : Z) (events : list Event) : list string :=
  map (λ e : Event, e.1.2) (List.filter (λ e : Event, Z.eqb e.2 id) events).

(** The commands go on, off, on, ... when [on_next] holds, and off, on,
    off, ... otherwise. *)
Fixpoint on_off_from (on_next : bool) (commands : list string) : Prop :=
  match commands with
  | [] => True
  | c :: rest => c = (if on_next then "on" else "off") ∧ on_off_from (negb on_next) rest
  end.

(** Two note numbers of the MIDI range written with the same number of
    digits. *)
Definition same_digits (a b : Z) : bool :=
  (Z.leb 0 a && Z.leb a 9 && Z.leb 0 b && Z.leb b 9)
  || (Z.leb 10 a && Z.leb a 99 && Z.leb 10 b && Z.leb b 99)
  || (Z.leb 100 a && Z.leb a 127 && Z.leb 100 b && Z.leb b 127).

(** The note numbers 0, 1, ..., 127. *)
Definition midi_range : list Z := map Z.of_nat (seq 0 128).

(** The two rows of the treble stave's annotations, and where an
    annotation is drawn. *)
Definition first_row (a : StaveNotater.Action) : bool :=
  match a with
  | StaveNotater.drawScaleDegree _ _ | StaveNotater.drawSolfege _ _ => true
  | _ => false
  end.

Definition second_row (a : StaveNotater.Action) : bool :=
  match a with
  | StaveNotater.drawNoteName _ _ | StaveNotater.drawHelmholtz _ _ => true
  | _ => false
  end.

Definition position (a : StaveNotater.Action) : option (Z * Z) :=
  match a with
  | StaveNotater.drawNoteName x y | StaveNotater.drawHelmholtz x y
  | StaveNotater.drawSolfege x y | StaveNotater.drawScaleDegree x y
  | StaveNotater.drawRoman x y | StaveNotater.drawInterval x y
  | StaveNotater.drawMetronomeMark x y | StaveNotater.drawKeyName x y => Some (x, y)
  | _ => None
  end.

Definition count {A} (p : A → bool) (l : list A) : nat := length (List.filter p l).

End Vocabulary.

(* ===================================================================== *)
(** ** Facts about the conversions *)
(* ===================================================================== *)

Section Conversions.

Lemma ToString_inj (a b : Z) : ToString a = ToString b → a = b.
Proof.
  unfold ToString. intros E.
  apply DecimalZ.to_int_inj.
  assert (H : Some (Z.to_int a) = Some (Z.to_int b))
    by (rewrite <- !NilEmpty.isi; now rewrite E).
  now inversion H.
Qed.

Lemma ToString_not_minus (z : Z) : ToString z ≠ "-".
Proof.
  unfold ToString. intros E.
  pose proof (NilEmpty.isi (Z.to_int z)) as H. rewrite E in H.
  simpl in H. inversion H as [H1].
  pose proof (DecimalZ.of_to z) as H2. rewrite <- H1 in H2. simpl in H2.
  subst z. discriminate H1.
Qed.

Lemma ToNumber_ToString (z : Z) : ToNumber (ToString z) = Num z.
Proof.
  unfold ToNumber.
  destruct (String.eqb_spec (ToString z) "-") as [E | _].
  - now apply ToString_not_minus in E.
  - unfold ToString. rewrite NilEmpty.isi. now rewrite DecimalZ.of_to.
Qed.

Lemma code_unit_le_total : Total code_unit_le.
Proof.
  intros a b. unfold code_unit_le.
  destruct (String.leb_total a b) as [H | H]; rewrite H; simpl; auto.
Qed.

Lemma ascii_compare_lt_trans (a b c : ascii) :
  Ascii.compare a b = Lt → Ascii.compare b c = Lt → Ascii.compare a c = Lt.
Proof.
  unfold Ascii.compare. rewrite !N.compare_lt_iff. apply N.lt_trans.
Qed.

Lemma string_compare_lt_trans : ∀ x y z : string,
  String.compare x y = Lt → String.compare y z = Lt → String.compare x z = Lt.
Proof.
  induction x as [| a x IH]; intros [| b y] [| c z]; simpl; try done.
  destruct (Ascii.compare a b) eqn:Eab; try done;
    destruct (Ascii.compare b c) eqn:Ebc; try done.
  - apply Ascii.compare_eq_iff in Eab, Ebc. subst b c.
    assert (Eaa : Ascii.compare a a = Eq)
      by (unfold Ascii.compare; apply N.compare_refl).
    rewrite Eaa. apply IH.
  - apply Ascii.compare_eq_iff in Eab. subst b. now rewrite Ebc.
  - apply Ascii.compare_eq_iff in Ebc. subst c. now rewrite Eab.
  - intros _ _. now rewrite (ascii_compare_lt_trans a b c).
Qed.

Lemma code_unit_le_trans : Transitive code_unit_le.
Proof.
  intros x y z. unfold code_unit_le, String.leb.
  destruct (String.compare x y) eqn:Exy; [| | done].
  - apply String.compare_eq_iff in Exy. now subst y.
  - destruct (String.compare y z) eqn:Eyz; [| | done].
    + apply String.compare_eq_iff in Eyz. subst z. now rewrite Exy.
    + now rewrite (string_compare_lt_trans x y z).
Qed.

Lemma code_unit_le_antisym : AntiSymm (=) code_unit_le.
Proof.
  intros x y Hxy Hyx. unfold code_unit_le in *.
  apply String.leb_antisym; now apply Is_true_true.
Qed.

(** [sort()] gives the same array whatever the order of the elements
    was: the enumeration order of [for in] does not reach its result. *)
Lemma sort_order_irrelevant (a b : list string) : a ≡ₚ b → JS.sort a = JS.sort b.
Proof.
  intros Hab.
  pose proof code_unit_le_trans. pose proof code_unit_le_antisym.
  apply (Sorted_unique code_unit_le).
  - apply Sorted_merge_sort, code_unit_le_total.
  - apply Sorted_merge_sort, code_unit_le_total.
  - unfold JS.sort. now rewrite !merge_sort_Permutation.
Qed.

Lemma sort_Permutation (a : list string) : JS.sort a ≡ₚ a.
Proof. apply merge_sort_Permutation. Qed.

Lemma sort_Sorted (a : list string) : Sorted code_unit_le (JS.sort a).
Proof. apply Sorted_merge_sort, code_unit_le_total. Qed.

Lemma elem_of_ownKeys {V} (obj : gmap string V) (k : string) :
  k ∈ ownKeys obj ↔ is_Some (obj !! k).
Proof.
  unfold ownKeys. rewrite list_elem_of_fmap. split.
  - intros [[k' v] [-> H]]. apply elem_of_map_to_list in H. eauto.
  - intros [v H]. exists (k, v). split; [done |]. now apply elem_of_map_to_list.
Qed.

Lemma NoDup_ownKeys {V} (obj : gmap string V) : NoDup (ownKeys obj).
Proof. apply NoDup_fst_map_to_list. Qed.

Lemma length_ownKeys {V} (obj : gmap string V) : length (ownKeys obj) = size obj.
Proof. unfold ownKeys. rewrite length_fmap. apply length_map_to_list. Qed.

End Conversions.

(* ===================================================================== *)
(** ** The chord: turning notes on and off *)
(* ===================================================================== *)

Section ChordCommands.

Import Chord Spec.

Lemma lookup_true_isNoteOn (number : Z) (this : Chord) :
  bool_decide (_notes this !! ToString number = Some true) = isNoteOn number this.
Proof.
  unfold isNoteOn.
  destruct (_notes this !! ToString number) as [[|]|]; case_bool_decide; congruence.
Qed.

Lemma noteOn_changed (number : Z) (this : Chord) :
  (noteOn number this).1.1 = negb (isNoteOn number this).
Proof. simpl. now rewrite lookup_true_isNoteOn. Qed.

Lemma noteOff_changed (number : Z) (this : Chord) :
  (noteOff number this).1.1 = isNoteOn number this.
Proof. simpl. now rewrite lookup_true_isNoteOn. Qed.

(** [noteOn] turns its own note on and leaves every other note as it was. *)
Lemma isNoteOn_noteOn (number id : Z) (this : Chord) :
  isNoteOn id (noteOn number this).1.2
  = if bool_decide (number = id) then true else isNoteOn id this.
Proof.
  unfold isNoteOn. simpl. case_bool_decide as E.
  - subst. now rewrite lookup_insert_eq.
  - rewrite lookup_insert_ne; [done |]. intros H. now apply ToString_inj in H.
Qed.

(** [noteOff] turns its own note off and leaves every other note as it was. *)
Lemma isNoteOn_noteOff (number id : Z) (this : Chord) :
  isNoteOn id (noteOff number this).1.2
  = if bool_decide (number = id) then false else isNoteOn id this.
Proof.
  unfold isNoteOn. simpl. case_bool_decide as E.
  - subst. now rewrite lookup_delete_eq.
  - rewrite lookup_delete_ne; [done |]. intros H. now apply ToString_inj in H.
Qed.

Lemma isNoteOn_new (id : Z) : isNoteOn id new = false.
Proof. reflexivity. Qed.

(** The state of a note after a run, from any starting chord: it has
    flipped once per reported change, and it is what the last call made
    for it says. *)
Lemma run_isNoteOn (calls : list Call) (id : Z) : ∀ this : Chord,
  isNoteOn id (run calls this).1.1
  = xorb (isNoteOn id this) (Nat.odd (changes_for id calls (run calls this).1.2))
  ∧ isNoteOn id (run calls this).1.1 = last_call_on id calls (isNoteOn id this).
Proof.
  induction calls as [| c calls IH]; intros this.
  - simpl. now rewrite xorb_false_r.
  - simpl.
    destruct (call c this) as [[changed this'] fired] eqn:Ec.
    specialize (IH this').
    destruct (run calls this') as [[this'' flags] fired'] eqn:Er.
    simpl in *. destruct IH as [IH1 IH2].
    assert (Hc : changed = (call c this).1.1) by now rewrite Ec.
    assert (Ht : this' = (call c this).1.2) by now rewrite Ec.
    clear Ec Er. subst this' changed. split.
    + rewrite IH1, Nat.odd_add.
      destruct c as [n | n]; unfold call, number_of.
      * rewrite isNoteOn_noteOn, noteOn_changed.
        case_bool_decide as E; [subst n |]; simpl;
          destruct (isNoteOn id this); simpl; now destruct (Nat.odd _).
      * rewrite isNoteOn_noteOff, noteOff_changed.
        case_bool_decide as E; [subst n |]; simpl;
          destruct (isNoteOn id this); simpl; now destruct (Nat.odd _).
    + rewrite IH2.
      destruct c as [n | n]; unfold call; cbn [last_call_on].
      * rewrite isNoteOn_noteOn. now case_bool_decide.
      * rewrite isNoteOn_noteOff. now case_bool_decide.
Qed.

(** C3. [noteOn(id)] leaves [id] on, returns [true] exactly when [id] was
    not on before and fires [('change','on',id)] exactly then; [noteOff(id)]
    leaves [id] off, returns [true] exactly when [id] was on before and
    fires [('change','off',id)] exactly then; the same command once more
    on the same [id] returns [false], fires nothing and leaves the chord
    as it is. *)
Theorem noteOn_noteOff_report_change (id : Z) (this : Chord) :
  (let '(changed, this', fired) := noteOn id this in
   isNoteOn id this' = true
   ∧ changed = negb (isNoteOn id this)
   ∧ fired = (if isNoteOn id this then [] else [("change", "on", id)])
   ∧ noteOn id this' = (false, this', []))
  ∧
  (let '(changed, this', fired) := noteOff id this in
   isNoteOn id this' = false
   ∧ changed = isNoteOn id this
   ∧ fired = (if isNoteOn id this then [("change", "off", id)] else [])
   ∧ noteOff id this' = (false, this', [])).
Proof.
  split.
  - pose proof (isNoteOn_noteOn id id this) as Hon.
    rewrite bool_decide_eq_true_2 in Hon by done.
    unfold noteOn in *. simpl in Hon. rewrite !lookup_true_isNoteOn.
    split; [exact Hon |]. split; [done |]. split.
    + now destruct (isNoteOn id this).
    + simpl. now rewrite Hon, insert_insert_eq.
  - pose proof (isNoteOn_noteOff id id this) as Hoff.
    rewrite bool_decide_eq_true_2 in Hoff by done.
    unfold noteOff in *. simpl in Hoff. rewrite !lookup_true_isNoteOn.
    split; [exact Hoff |]. split; [done |]. split.
    + now destruct (isNoteOn id this).
    + simpl. now rewrite Hoff, delete_delete_eq.
Qed.

(** C2, as the code has it. After any sequence of calls on a new chord,
    [isNoteOn(id)] is the parity of the calls made for [id] that reported
    a change, which is also what the last call made for [id] asked for; a
    second consecutive [noteOn(id)] returns [false], and so does a second
    consecutive [noteOff(id)]. *)
Theorem isNoteOn_parity_of_changes (calls : list Call) (id : Z) :
  isNoteOn id (run calls new).1.1
  = Nat.odd (changes_for id calls (run calls new).1.2)
  ∧ isNoteOn id (run calls new).1.1 = last_call_on id calls false
  ∧ (∀ this : Chord, (noteOn id (noteOn id this).1.2).1.1 = false)
  ∧ (∀ this : Chord, (noteOff id (noteOff id this).1.2).1.1 = false).
Proof.
  destruct (run_isNoteOn calls id new) as [H1 H2].
  rewrite isNoteOn_new in H1, H2. rewrite xorb_false_l in H1.
  split; [exact H1 |]. split; [exact H2 |]. split; intros this.
  - rewrite noteOn_changed, isNoteOn_noteOn. now rewrite bool_decide_eq_true_2.
  - rewrite noteOff_changed, isNoteOn_noteOff. now rewrite bool_decide_eq_true_2.
Qed.

(** C2, as it is written. The parity of all the calls made for [id] is not
    the state of the note: after [noteOn(5); noteOn(5)] two calls were made
    and the note is on, after [noteOn(5)] alone one call was made and the
    note is on, so neither parity fits. *)
Lemma isNoteOn_not_parity_of_calls :
  isNoteOn 5 (after [NoteOn 5; NoteOn 5]) = true
  ∧ calls_for 5 [NoteOn 5; NoteOn 5] = 2%nat
  ∧ isNoteOn 5 (after [NoteOn 5; NoteOn 5])
    ≠ Nat.odd (calls_for 5 [NoteOn 5; NoteOn 5])
  ∧ isNoteOn 5 (after [NoteOn 5]) ≠ Nat.even (calls_for 5 [NoteOn 5]).
Proof. vm_compute. repeat split; discriminate. Qed.

End ChordCommands.

(* ===================================================================== *)
(** ** The chord: sorted notes, clefs and pitches *)
(* ===================================================================== *)

Section ChordQueries.

Import Chord Spec.

Lemma note_names_only_run (calls : list Call) : ∀ this : Chord,
  note_names_only this → note_names_only (run calls this).1.1.
Proof.
  induction calls as [| c calls IH]; intros this Hwf; [exact Hwf |].
  simpl. destruct (call c this) as [[changed this'] fired] eqn:Ec.
  specialize (IH this').
  destruct (run calls this') as [[this'' flags] fired'].
  simpl in *. apply IH. clear IH.
  assert (Ht : this' = (call c this).1.2) by now rewrite Ec.
  subst this'. clear Ec. intros k b.
  destruct c as [n | n]; simpl.
  - destruct (decide (ToString n = k)) as [<- | Hne].
    + rewrite lookup_insert_eq. intros [= <-]. eauto.
    + rewrite lookup_insert_ne by done. apply Hwf.
  - destruct (decide (ToString n = k)) as [<- | Hne].
    + now rewrite lookup_delete_eq.
    + rewrite lookup_delete_ne by done. apply Hwf.
Qed.

Lemma note_names_only_after (calls : list Call) : note_names_only (after calls).
Proof. apply note_names_only_run. intros k b H. simpl in H. now rewrite lookup_empty in H. Qed.

(** A name is among the sorted notes exactly when it is a property of
    [_notes]. *)
Lemma elem_of_getSortedNotes (this : Chord) (k : string) :
  k ∈ getSortedNotes this ↔ is_Some (_notes this !! k).
Proof.
  unfold getSortedNotes. rewrite sort_Permutation. apply elem_of_ownKeys.
Qed.

Lemma NoDup_getSortedNotes (this : Chord) : NoDup (getSortedNotes this).
Proof.
  unfold getSortedNotes. rewrite sort_Permutation. apply NoDup_ownKeys.
Qed.

Lemma length_getSortedNotes (this : Chord) :
  length (getSortedNotes this) = size (_notes this).
Proof.
  unfold getSortedNotes. rewrite sort_Permutation. apply length_ownKeys.
Qed.

(** What [getSortedNotes] does guarantee: the order of the strings. *)
Lemma getSortedNotes_code_unit_order (this : Chord) :
  Sorted code_unit_le (getSortedNotes this).
Proof. apply sort_Sorted. Qed.

Lemma isNoteOn_elem_of (calls : list Call) (id : Z) :
  isNoteOn id (after calls) = true ↔ ToString id ∈ getSortedNotes (after calls).
Proof.
  rewrite elem_of_getSortedNotes. unfold isNoteOn. split.
  - destruct (_notes (after calls) !! ToString id); [eauto | discriminate].
  - intros [b Hb]. rewrite Hb.
    now destruct (note_names_only_after calls _ _ Hb) as [-> _].
Qed.

(** The loop of [mapNotes] when the clef is falsy: nothing is filtered. *)
Lemma mapNotes_loop_no_clef {A} (callback : string → A) (clef : Value) :
  ToBoolean clef = false →
  ∀ notes acc, mapNotes_loop callback clef acc true notes
               = Return (acc ++ map callback notes).
Proof.
  intros Hc. induction notes as [| n notes IH]; intros acc; simpl.
  - now rewrite app_nil_r.
  - rewrite Hc. simpl. rewrite IH. now rewrite <- app_assoc.
Qed.

(** The loop when the clef is one that [noteNumBelongsToClef] answers with
    the test [p]. *)
Lemma mapNotes_loop_filter {A} (callback : string → A) (clef : Value)
    (p : string → bool) :
  ToBoolean clef = true →
  (∀ noteNum, noteNumBelongsToClef noteNum clef = Return (p noteNum)) →
  ∀ notes acc wanted, mapNotes_loop callback clef acc wanted notes
                      = Return (acc ++ map callback (List.filter p notes)).
Proof.
  intros Hc Hp. induction notes as [| n notes IH]; intros acc wanted; simpl.
  - now rewrite app_nil_r.
  - rewrite Hc, Hp. simpl. rewrite IH. destruct (p n); [| done].
    simpl. now rewrite <- app_assoc.
Qed.

(** The loop when the clef is truthy and [noteNumBelongsToClef] throws: the
    first note raises the error. *)
Lemma mapNotes_loop_throw {A} (callback : string → A) (clef : Value) (e : Exn) :
  ToBoolean clef = true →
  (∀ noteNum, noteNumBelongsToClef noteNum clef = Throw e) →
  ∀ n notes acc wanted, mapNotes_loop callback clef acc wanted (n :: notes) = Throw e.
Proof. intros Hc Hp n notes acc wanted. simpl. now rewrite Hc, Hp. Qed.

(** [mapNotes] is [getNoteNumbers] followed by the callback. *)
Lemma mapNotes_loop_callback {A} (callback : string → A) (clef : Value) :
  ∀ notes acc wanted,
    mapNotes_loop callback clef (map callback acc) wanted notes
    = let! names := mapNotes_loop (λ noteNum, noteNum) clef acc wanted notes in
      Return (map callback names).
Proof.
  induction notes as [| n notes IH]; intros acc wanted; simpl; [done |].
  destruct (if ToBoolean clef then noteNumBelongsToClef n clef else Return wanted)
    as [w | e]; simpl; [| done].
  rewrite <- IH. destruct w; [| done]. now rewrite map_app.
Qed.

Lemma mapNotes_callback {A} (callback : string → A) (clef : Value) (this : Chord) :
  mapNotes callback clef this
  = let! names := getNoteNumbers clef this in Return (map callback names).
Proof. apply (mapNotes_loop_callback callback clef _ [] true). Qed.

Lemma invalid_clef (clef : Value) :
  clef ≠ VString "treble" → clef ≠ VString "bass" →
  ∀ noteNum, noteNumBelongsToClef noteNum clef = Throw (Error "invalid clef" None).
Proof.
  intros Ht Hb noteNum. unfold noteNumBelongsToClef.
  destruct clef as [| | | | c |]; try done.
  destruct (String.eqb_spec c "treble") as [-> | _]; [done |].
  destruct (String.eqb_spec c "bass") as [-> | _]; done.
Qed.

Lemma getNoteNumbers_treble (this : Chord) :
  getNoteNumbers (VString "treble") this
  = Return (List.filter (λ s, JS.ge (ToNumber s) 60) (getSortedNotes this)).
Proof.
  unfold getNoteNumbers, mapNotes.
  rewrite (mapNotes_loop_filter _ _ (λ s, JS.ge (ToNumber s) 60)); try done.
  simpl. now rewrite map_id.
Qed.

Lemma getNoteNumbers_bass (this : Chord) :
  getNoteNumbers (VString "bass") this
  = Return (List.filter (λ s, JS.lt (ToNumber s) 60) (getSortedNotes this)).
Proof.
  unfold getNoteNumbers, mapNotes.
  rewrite (mapNotes_loop_filter _ _ (λ s, JS.lt (ToNumber s) 60)); try done.
  simpl. now rewrite map_id.
Qed.

Lemma getNoteNumbers_no_clef (clef : Value) (this : Chord) :
  ToBoolean clef = false → getNoteNumbers clef this = Return (getSortedNotes this).
Proof.
  intros Hc. unfold getNoteNumbers, mapNotes.
  rewrite mapNotes_loop_no_clef by done. simpl. now rewrite map_id.
Qed.

(** Two tests that split the names of integers split a list. *)
Lemma filter_split (p q : string → bool) (l : list string) :
  (∀ s, s ∈ l → q s = negb (p s)) →
  List.filter p l ++ List.filter q l ≡ₚ l.
Proof.
  induction l as [| s l IH]; intros H; [done |]. simpl.
  rewrite (H s) by apply list_elem_of_here.
  assert (IH' : List.filter p l ++ List.filter q l ≡ₚ l).
  { apply IH. intros s' Hs'. apply H. now apply list_elem_of_further. }
  destruct (p s); simpl.
  - now rewrite IH'.
  - rewrite <- Permutation_middle. now rewrite IH'.
Qed.

Lemma elem_of_filter_bool (p : string → bool) (l : list string) (s : string) :
  s ∈ List.filter p l ↔ s ∈ l ∧ p s = true.
Proof. rewrite !list_elem_of_In. apply filter_In. Qed.

Lemma getSortedNotes_empty (this : Chord) :
  getSortedNotes this = [] ↔ _notes this = ∅.
Proof.
  rewrite <- map_size_empty_iff, <- length_getSortedNotes.
  now destruct (getSortedNotes this).
Qed.

Lemma ownKeys_empty {V} (obj : gmap string V) : ownKeys obj = [] ↔ obj = ∅.
Proof.
  rewrite <- map_size_empty_iff, <- length_ownKeys. now destruct (ownKeys obj).
Qed.

(** C1, at the input of the specification. After [noteOn(9)], [noteOn(60)]
    and [noteOn(2)] the sorted notes are ["2"; "60"; "9"]: the names are
    compared as strings, and the result is not in numeric order. *)
Theorem getSortedNotes_orders_names_as_text :
  getSortedNotes (after [NoteOn 9; NoteOn 60; NoteOn 2]) = ["2"; "60"; "9"]
  ∧ ¬ Sorted numeric_le (getSortedNotes (after [NoteOn 9; NoteOn 60; NoteOn 2])).
Proof.
  assert (E : getSortedNotes (after [NoteOn 9; NoteOn 60; NoteOn 2])
              = ["2"; "60"; "9"]) by (vm_compute; reflexivity).
  split; [exact E |]. rewrite E. intros H.
  apply Sorted_inv in H as [H _]. apply Sorted_inv in H as [_ H].
  apply HdRel_inv in H. vm_compute in H. now apply H.
Qed.

(** C4. For the chord after any sequence of calls, the notes returned for
    the clef 'bass' and those returned for 'treble' are the names of the
    notes that are on, split at 60: 'treble' has exactly the ids that are on
    and at least 60, 'bass' exactly those that are on and below 60, no name
    is in both, and together they are all the notes of the chord. *)
Theorem clefs_partition_notes_at_60 (calls : list Call) :
  ∃ bass treble : list string,
    getNotes (VString "bass") (after calls) = Return bass
    ∧ getNotes (VString "treble") (after calls) = Return treble
    ∧ (∀ id : Z, ToString id ∈ treble ↔ isNoteOn id (after calls) = true ∧ 60 ≤ id)
    ∧ (∀ id : Z, ToString id ∈ bass ↔ isNoteOn id (after calls) = true ∧ id < 60)
    ∧ (∀ s, s ∈ bass ++ treble →
            ∃ id : Z, s = ToString id ∧ isNoteOn id (after calls) = true)
    ∧ (∀ s, s ∈ bass → s ∉ treble)
    ∧ NoDup (bass ++ treble)
    ∧ bass ++ treble ≡ₚ getSortedNotes (after calls).
Proof.
  exists (List.filter (λ s, JS.lt (ToNumber s) 60) (getSortedNotes (after calls))),
         (List.filter (λ s, JS.ge (ToNumber s) 60) (getSortedNotes (after calls))).
  assert (Hnames : ∀ s, s ∈ getSortedNotes (after calls) →
                        ∃ id : Z, s = ToString id ∧ isNoteOn id (after calls) = true).
  { intros s Hs. pose proof Hs as Hs'.
    apply elem_of_getSortedNotes in Hs as [b Hb].
    destruct (note_names_only_after calls _ _ Hb) as [_ [id ->]].
    exists id. split; [done |]. now apply isNoteOn_elem_of. }
  assert (Hperm : List.filter (λ s, JS.lt (ToNumber s) 60) (getSortedNotes (after calls))
                  ++ List.filter (λ s, JS.ge (ToNumber s) 60) (getSortedNotes (after calls))
                  ≡ₚ getSortedNotes (after calls)).
  { apply filter_split. intros s Hs. destruct (Hnames s Hs) as [id [-> _]].
    rewrite ToNumber_ToString. simpl. apply Z.leb_antisym. }
  assert (Hnodup : NoDup (List.filter (λ s, JS.lt (ToNumber s) 60) (getSortedNotes (after calls))
                  ++ List.filter (λ s, JS.ge (ToNumber s) 60) (getSortedNotes (after calls)))).
  { rewrite Hperm. apply NoDup_getSortedNotes. }
  split; [apply getNoteNumbers_bass |]. split; [apply getNoteNumbers_treble |].
  split; [| split; [| split; [| split; [| split]]]].
  - intros id. rewrite elem_of_filter_bool, ToNumber_ToString. simpl.
    rewrite <- isNoteOn_elem_of. now rewrite Z.leb_le.
  - intros id. rewrite elem_of_filter_bool, ToNumber_ToString. simpl.
    rewrite <- isNoteOn_elem_of. now rewrite Z.ltb_lt.
  - intros s Hs. apply Hnames. now rewrite <- Hperm.
  - apply NoDup_app in Hnodup as (_ & H & _). exact H.
  - exact Hnodup.
  - exact Hperm.
Qed.

(** What the conversion of one note gives, whatever its sign. *)
Lemma notePitch_ToString (id : Z) :
  notePitch (ToString id)
  = {| pitchClass := Num (Z.rem id 12); octave := Num (id / 12 - 1) |}.
Proof. unfold notePitch. now rewrite ToNumber_ToString. Qed.

(** C6. For a note [id] in [0,127] that is on, [getNotePitches] has the
    entry with pitch class [id mod 12] and octave [floor(id/12) - 1]: it
    returns the conversion of every sorted note, the entry of [id] is that
    pair, and with a clef it converts the notes of that clef. *)
Theorem getNotePitches_pitchClass_octave (calls : list Call) (id : Z) :
  0 ≤ id ≤ 127 →
  isNoteOn id (after calls) = true →
  notePitch (ToString id)
  = {| pitchClass := Num (id mod 12); octave := Num (id / 12 - 1) |}
  ∧ getNotePitches VUndefined (after calls)
    = Return (map notePitch (getSortedNotes (after calls)))
  ∧ ToString id ∈ getSortedNotes (after calls)
  ∧ (∃ pitches, getNotePitches VUndefined (after calls) = Return pitches
       ∧ {| pitchClass := Num (id mod 12); octave := Num (id / 12 - 1) |} ∈ pitches)
  ∧ (∀ clef, getNotePitches clef (after calls)
             = let! names := getNoteNumbers clef (after calls) in
               Return (map notePitch names)).
Proof.
  intros Hid Hon.
  assert (Hp : notePitch (ToString id)
               = {| pitchClass := Num (id mod 12); octave := Num (id / 12 - 1) |}).
  { rewrite notePitch_ToString. now rewrite Z.rem_mod_nonneg by lia. }
  assert (Hall : getNotePitches VUndefined (after calls)
                 = Return (map notePitch (getSortedNotes (after calls)))).
  { unfold getNotePitches. rewrite mapNotes_callback.
    now rewrite getNoteNumbers_no_clef. }
  assert (Hin : ToString id ∈ getSortedNotes (after calls))
    by now apply isNoteOn_elem_of.
  split; [exact Hp |]. split; [exact Hall |]. split; [exact Hin |]. split.
  - eexists. split; [exact Hall |]. rewrite <- Hp.
    now apply list_elem_of_fmap_2.
  - intros clef. apply mapNotes_callback.
Qed.

(** The instance of C6 at middle C: note 60 has pitch class 0, octave 4. *)
Lemma getNotePitches_pitchClass_octave_witness :
  0 ≤ 60 ≤ 127
  ∧ isNoteOn 60 (after [NoteOn 60]) = true
  ∧ notePitch (ToString 60) = {| pitchClass := Num 0; octave := Num 4 |}.
Proof.
  assert (H1 : 0 ≤ 60 ≤ 127) by lia.
  assert (H2 : isNoteOn 60 (after [NoteOn 60]) = true) by (vm_compute; reflexivity).
  split; [exact H1 |]. split; [exact H2 |].
  exact (proj1 (getNotePitches_pitchClass_octave [NoteOn 60] 60 H1 H2)).
Defined.

(** The loop of [hasNotes] when the clef is falsy: any name will do. *)
Lemma hasNotes_loop_no_clef (clef : Value) (names : list string) :
  ToBoolean clef = false →
  hasNotes_loop clef names = Return (bool_decide (names ≠ [])).
Proof. intros Hc. destruct names; simpl; [done |]. now rewrite Hc. Qed.

(** The loop of [hasNotes] when [noteNumBelongsToClef] throws. *)
Lemma hasNotes_loop_throw (clef : Value) (e : Exn) (n : string) (names : list string) :
  ToBoolean clef = true →
  (∀ noteNum, noteNumBelongsToClef noteNum clef = Throw e) →
  hasNotes_loop clef (n :: names) = Throw e.
Proof. intros Hc Hp. simpl. now rewrite Hc, Hp. Qed.

Lemma noteNumBelongsToClef_throws_for_all (x y : string) (clef : Value) (e : Exn) :
  noteNumBelongsToClef x clef = Throw e → noteNumBelongsToClef y clef = Throw e.
Proof.
  unfold noteNumBelongsToClef. destruct clef as [| | | | c |]; try done.
  destruct (String.eqb c "treble"); [done |]. now destruct (String.eqb c "bass").
Qed.

(** The loop of [hasNotes] gives the same outcome whatever the order in
    which [for in] hands out the names. *)
Lemma hasNotes_loop_order_irrelevant (clef : Value) (a b : list string) :
  a ≡ₚ b → hasNotes_loop clef a = hasNotes_loop clef b.
Proof.
  induction 1 as [| x a b _ IH | x y a | a b c _ IH1 _ IH2]; simpl.
  - done.
  - destruct (ToBoolean clef); [| done].
    destruct (noteNumBelongsToClef x clef) as [[|] | e]; simpl; done.
  - destruct (ToBoolean clef); [| done].
    destruct (noteNumBelongsToClef x clef) as [bx | ex] eqn:Ex,
             (noteNumBelongsToClef y clef) as [bY | ey] eqn:Ey; simpl.
    + now destruct bx, bY.
    + apply (noteNumBelongsToClef_throws_for_all y x) in Ey. congruence.
    + apply (noteNumBelongsToClef_throws_for_all x y) in Ex. congruence.
    + apply (noteNumBelongsToClef_throws_for_all x y) in Ex. congruence.
  - now rewrite IH1.
Qed.

(** C5, as the code has it. For every clef other than 'treble' and 'bass',
    [noteNumBelongsToClef] throws "invalid clef" for every note and
    [StaveNotater.create] throws for every config. [getNotes], [mapNotes],
    [getNotePitches] and [hasNotes] reach that check once per note: with a
    truthy clef and at least one note they throw the same error, with no
    note they return the empty list and [false], and with a falsy clef they
    do not filter at all. *)
Theorem invalid_clef_throws_per_note (clef : Value) :
  clef ≠ VString "treble" → clef ≠ VString "bass" →
  (∀ noteNum, noteNumBelongsToClef noteNum clef = Throw (Error "invalid clef" None))
  ∧ (∀ c, StaveNotater.create clef c
          = Throw (Error "no such notater for clef: " (Some clef)))
  ∧ (∀ this, ToBoolean clef = true → _notes this ≠ ∅ →
       getNotes clef this = Throw (Error "invalid clef" None)
       ∧ (∀ A (callback : string → A),
            mapNotes callback clef this = Throw (Error "invalid clef" None))
       ∧ getNotePitches clef this = Throw (Error "invalid clef" None)
       ∧ hasNotes clef this = Throw (Error "invalid clef" None))
  ∧ (∀ this, ToBoolean clef = true → _notes this = ∅ →
       getNotes clef this = Return []
       ∧ getNotePitches clef this = Return []
       ∧ hasNotes clef this = Return false)
  ∧ (∀ this, ToBoolean clef = false →
       getNotes clef this = Return (getSortedNotes this)
       ∧ hasNotes clef this = Return (bool_decide (_notes this ≠ ∅))).
Proof.
  intros Ht Hb. pose proof (invalid_clef clef Ht Hb) as Hinv.
  split; [exact Hinv |]. split; [| split; [| split]].
  - intros c. unfold StaveNotater.create.
    destruct clef as [| | | | name |]; try done.
    destruct (String.eqb_spec name "treble") as [-> | _]; [done |].
    destruct (String.eqb_spec name "bass") as [-> | _]; done.
  - intros this Hc Hne.
    assert (Hmap : ∀ A (callback : string → A),
               mapNotes callback clef this = Throw (Error "invalid clef" None)).
    { intros A callback. unfold mapNotes.
      destruct (getSortedNotes this) as [| n notes] eqn:E.
      - now apply getSortedNotes_empty in E.
      - now apply mapNotes_loop_throw. }
    split; [apply Hmap |]. split; [exact Hmap |]. split; [apply Hmap |].
    unfold hasNotes. destruct (ownKeys (_notes this)) as [| n names] eqn:E.
    + now apply ownKeys_empty in E.
    + now apply hasNotes_loop_throw.
  - intros this Hc He.
    unfold getNotes, getNoteNumbers, getNotePitches, mapNotes, hasNotes.
    apply getSortedNotes_empty in He as E1. apply ownKeys_empty in He as E2.
    now rewrite E1, E2.
  - intros this Hc. split; [now apply getNoteNumbers_no_clef |].
    unfold hasNotes. rewrite hasNotes_loop_no_clef by done. f_equal.
    apply bool_decide_ext. now rewrite ownKeys_empty.
Qed.

(** The instance of C5 at the clef 'alto' and the chord with note 60. *)
Lemma invalid_clef_throws_per_note_witness :
  noteNumBelongsToClef "60" (VString "alto") = Throw (Error "invalid clef" None)
  ∧ getNotes (VString "alto") (after [NoteOn 60]) = Throw (Error "invalid clef" None).
Proof.
  assert (Ht : VString "alto" ≠ VString "treble") by discriminate.
  assert (Hb : VString "alto" ≠ VString "bass") by discriminate.
  destruct (invalid_clef_throws_per_note (VString "alto") Ht Hb)
    as (H1 & _ & H3 & _).
  split; [apply H1 |].
  apply H3; [reflexivity |]. vm_compute. discriminate.
Defined.

(** C5, as it is written. An unknown clef does not make [getNotes] or
    [hasNotes] fail on a chord without notes, and the empty string is not
    checked at all. *)
Lemma invalid_clef_returns_without_notes :
  getNotes (VString "alto") new = Return []
  ∧ hasNotes (VString "alto") new = Return false
  ∧ getNotes (VString "") (after [NoteOn 60]) = Return ["60"].
Proof. vm_compute. repeat split; reflexivity. Qed.

End ChordQueries.

(* ===================================================================== *)
(** ** The configuration reader: lookups and immutability *)
(* ===================================================================== *)

Section ConfigReader.

Import Config.


Lemma split_dot_cons (s : string) : ∃ piece pieces, split_dot s = piece :: pieces.
Proof.
  induction s as [| c s IH]; simpl; [eauto |].
  destruct (Ascii.eqb c "."); [eauto |].
  destruct IH as (piece & pieces & ->). eauto.
Qed.

(** The segments of [a.b] are those of [a] followed by those of [b]. *)
Lemma split_dot_app (a b : string) :
  split_dot (a ++ "." ++ b)%string = split_dot a ++ split_dot b.
Proof.
  induction a as [| c a IH]; simpl; [done |].
  rewrite IH. destruct (Ascii.eqb c "."); [done |].
  now destruct (split_dot_cons a) as (piece & pieces & ->).
Qed.






(** [get] on a small tree: a stored value, a missing last segment, a
    missing first segment, a path through a leaf, and a key that is a
    number. *)
Example get_on_a_small_tree :
  let this :=
    {| __config :=
         VObject (<["general" := VObject (<["title" := VString "Harmony Lab"]> ∅)]>
                  (<["analysis" := VObject (<["enabled" := VBoolean true]> ∅)]> ∅)) |} in
  (get (VString "general.title") this).1 = Return (VString "Harmony Lab")
  ∧ (get (VString "analysis.enabled") this).1 = Return (VBoolean true)
  ∧ (get (VString "general.tempo") this).1
    = Throw (Error "Key not found: " (Some (VString "general.tempo")))
  ∧ (get (VString "highlight.roots") this).1
    = Throw (Error "Key not found: " (Some (VString "highlight.roots")))
  ∧ (get (VString "analysis.enabled.x") this).1
    = Throw (Error "Key not found: " (Some (VString "analysis.enabled.x")))
  ∧ (get (VNumber 3) this).1
    = Throw (Error "Config key must be a string: " (Some (VNumber 3))).
Proof. vm_compute. repeat split; reflexivity. Qed.

Lemma call_keeps_config (c : Call) (this : Config) : (call c this).2 = this.
Proof. destruct c as [key | key value]; [| done]. now destruct key. Qed.

Lemma run_keeps_config (calls : list Call) : ∀ this : Config,
  (run calls this).2 = this
  ∧ (run calls this).1 = map (λ c, (call c this).1) calls.
Proof.
  induction calls as [| c calls IH]; intros this; simpl; [done |].
  pose proof (call_keeps_config c this) as Hc.
  destruct (call c this) as [r this'] eqn:Ec. simpl in Hc. subst this'.
  destruct (IH this) as [IH1 IH2].
  destruct (run calls this) as [rs this'']. simpl in *. now subst.
Qed.

(** C9. [set] throws for every key and value and leaves the object as it
    is; [get] leaves the object as it is; after any sequence of [get] and
    [set] calls the object is the one before, each call of the sequence
    had the outcome it has on the first object, and every [get] made
    afterwards gives what it gave before. *)
Theorem config_is_read_only (calls : list Call) (this : Config) :
  (∀ key value, set key value this = (Throw (Error "config is read-only" None), this))
  ∧ (∀ key, (get key this).2 = this)
  ∧ (run calls this).2 = this
  ∧ (run calls this).1 = map (λ c, (call c this).1) calls
  ∧ (∀ key, get key (run calls this).2 = get key this).
Proof.
  destruct (run_keeps_config calls this) as [H1 H2].
  split; [done |]. split; [intros key; apply (call_keeps_config (CallGet key)) |].
  split; [exact H1 |]. split; [exact H2 |]. intros key. now rewrite H1.
Qed.

End ConfigReader.

(* ===================================================================== *)
(** ** The stave notaters: which annotation for how many notes *)
(* ===================================================================== *)

Section Annotations.

Import Chord StaveNotater.

Ltac each_action H :=
  repeat (apply elem_of_app in H as [H | H]);
  repeat (apply elem_of_cons in H as [-> | H]);
  try (now apply elem_of_nil in H).

(** What [notateChord] draws, by the number of notes of the chord. *)
Lemma notateChord_by_number_of_notes (this : Notater) (c : Chord) :
  ∃ actions : list Action,
    notateChord this c = Return actions
    ∧ ∀ a, a ∈ actions →
        (single_note_annotation a = true → size (_notes c) = 1%nat)
        ∧ (interval_annotation a = true → size (_notes c) = 2%nat)
        ∧ (roman_annotation a = true → (2 < size (_notes c))%nat)
        ∧ (single_note_annotation a || interval_annotation a
           || roman_annotation a = true).
Proof.
  unfold notateChord, notateChord_treble, notateChord_bass.
  rewrite getNoteNumbers_no_clef by done. simpl.
  rewrite length_getSortedNotes.
  destruct (kind this).
  - destruct (Nat.eqb_spec (size (_notes c)) 1) as [E | E].
    + eexists. split; [reflexivity |]. intros a Ha.
      destruct (ToBoolean (scale_degrees _)), (ToBoolean (solfege _)),
        (ToBoolean (note_names _)), (ToBoolean (helmholtz _));
        simpl in Ha; each_action Ha; simpl; repeat split; (done || discriminate).
    + eexists. split; [reflexivity |]. intros a Ha. now apply elem_of_nil in Ha.
  - destruct (Nat.eqb_spec (size (_notes c)) 2) as [E | E].
    + eexists. split; [reflexivity |]. intros a Ha.
      destruct (ToBoolean (intervals _)); each_action Ha;
        simpl; repeat split; (done || discriminate).
    + destruct (Nat.ltb_spec 2 (size (_notes c))) as [L | L].
      * eexists. split; [reflexivity |]. intros a Ha.
        destruct (ToBoolean (roman_numerals _)); each_action Ha;
          simpl; repeat split; (done || discriminate).
      * eexists. split; [reflexivity |]. intros a Ha. now apply elem_of_nil in Ha.
Qed.

(** C7. [notate] always returns, and among the draw calls it makes, the
    ones for the scale degree, the solfege, the note name and the
    Helmholtz name occur only when the chord has exactly one note, the one
    for the interval only when it has exactly two, and the one for the
    Roman numeral only when it has more than two; so for any other number
    of notes the annotation is not drawn. The same holds of [notateChord]
    called directly. The number of notes is the length of the list
    [getNoteNumbers()] returns. *)
Theorem annotations_by_number_of_notes (this : Notater) :
  (∃ actions : list Action,
     notate this = Return actions
     ∧ ∀ a, a ∈ actions →
         single_note_annotation a || interval_annotation a || roman_annotation a = true →
         isAnalyzerEnabled this = true
         ∧ ∃ c : Chord,
             chord this = Some c
             ∧ getNoteNumbers VUndefined c = Return (getSortedNotes c)
             ∧ length (getSortedNotes c) = size (_notes c)
             ∧ (single_note_annotation a = true → size (_notes c) = 1%nat)
             ∧ (interval_annotation a = true → size (_notes c) = 2%nat)
             ∧ (roman_annotation a = true → (2 < size (_notes c))%nat))
  ∧ (∀ c : Chord, ∃ actions : list Action,
       notateChord this c = Return actions
       ∧ ∀ a, a ∈ actions →
           (single_note_annotation a = true → size (_notes c) = 1%nat)
           ∧ (interval_annotation a = true → size (_notes c) = 2%nat)
           ∧ (roman_annotation a = true → (2 < size (_notes c))%nat)).
Proof.
  split.
  - unfold notate.
    assert (Hstave : ∀ a, a ∈ [save; font getFont] ++ notateStave this →
              single_note_annotation a || interval_annotation a
              || roman_annotation a = false).
    { intros a Ha. unfold notateStave in Ha.
      destruct (isFirstBar _), (kind this); each_action Ha; done. }
    destruct (isAnalyzerEnabled this) eqn:Een; [destruct (chord this) as [c |] eqn:Ech |].
    + destruct (notateChord_by_number_of_notes this c) as (drawn & -> & Hd).
      eexists. split; [reflexivity |]. intros a Ha Hann.
      apply elem_of_app in Ha as [Ha | Ha];
        [apply Hstave in Ha; congruence |].
      apply elem_of_app in Ha as [Ha | Ha];
        [| apply list_elem_of_singleton in Ha; now subst a].
      destruct (Hd a Ha) as (H1 & H2 & H3 & _).
      split; [done |]. exists c. split; [done |].
      split; [now apply getNoteNumbers_no_clef |].
      split; [apply length_getSortedNotes |]. done.
    + eexists. split; [reflexivity |]. intros a Ha Hann.
      apply elem_of_app in Ha as [Ha | Ha];
        [apply Hstave in Ha; congruence |].
      apply list_elem_of_singleton in Ha. now subst a.
    + eexists. split; [reflexivity |]. intros a Ha Hann.
      apply elem_of_app in Ha as [Ha | Ha];
        [apply Hstave in Ha; congruence |].
      apply list_elem_of_singleton in Ha. now subst a.
  - intros c. destruct (notateChord_by_number_of_notes this c) as (drawn & E & Hd).
    exists drawn. split; [exact E |]. intros a Ha.
    destruct (Hd a Ha) as (H1 & H2 & H3 & _). done.
Qed.

End Annotations.

(* ===================================================================== *)
(** ** The piano keys: state and events *)
(* ===================================================================== *)

Section PianoKeys.

Import PianoKey.

Lemma press_state (w : World) :
  state (press w).2 = STATE_KEYDN ∧ noteNumber (press w).2 = noteNumber w.2.
Proof. now destruct w as [p k]. Qed.

Lemma release_state (w : World) :
  state (release w).2 = STATE_KEYUP ∧ noteNumber (release w).2 = noteNumber w.2.
Proof.
  destruct w as [p k]. unfold release. simpl.
  destruct (String.eqb (sustain k) SUSTAIN_ON); [done |].
  now destruct (String.eqb (sustain k) SUSTAIN_OFF).
Qed.

Lemma clear_state (w : World) :
  state (clear w).2 = STATE_KEYUP ∧ noteNumber (clear w).2 = noteNumber w.2.
Proof. now destruct w as [p k]. Qed.

(** [setSustain] recolours a released key and leaves the state alone. *)
Lemma setSustain_state (v : Value) (w : World) :
  state (setSustain v w).2 = state w.2
  ∧ noteNumber (setSustain v w).2 = noteNumber w.2.
Proof.
  destruct w as [p k]. unfold setSustain.
  destruct (ToBoolean v).
  - now destruct (isPressed _).
  - destruct (isReleased _) eqn:E; [| done].
    destruct (release_state (p, set_sustain SUSTAIN_OFF k)) as [-> ->].
    unfold isReleased in E. apply String.eqb_eq in E. simpl in *. now rewrite E.
Qed.

(** One step: where the state goes, and what is fired. An event is fired
    only by a handler that finds the key in the other state, and it
    carries the state the key has just entered. *)
Lemma step_events (m : Method) (w : World) :
  noteNumber (step m w).1.2 = noteNumber w.2
  ∧ ((step m w).2 = []
     ∨ (step m w).2 = [("key", state (step m w).1.2, noteNumber w.2)]
       ∧ state (step m w).1.2 ≠ state w.2
       ∧ (m = OnPress ∧ state w.2 = STATE_KEYUP ∧ state (step m w).1.2 = STATE_KEYDN
          ∨ m = OnRelease ∧ state w.2 = STATE_KEYDN
            ∧ state (step m w).1.2 = STATE_KEYUP)).
Proof.
  destruct m; simpl.
  - unfold onPress. destruct (isReleased w.2) eqn:E; simpl; [| auto].
    apply String.eqb_eq in E. destruct (press_state w) as [Hs Hn].
    rewrite Hs, Hn, E. split; [done |]. right. split; [done |]. split; [done |].
    left. done.
  - unfold onRelease. destruct (isPressed w.2) eqn:E; simpl; [| auto].
    apply String.eqb_eq in E. destruct (release_state w) as [Hs Hn].
    rewrite Hs, Hn, E. split; [done |]. right. split; [done |]. split; [done |].
    right. done.
  - split; [apply press_state | auto].
  - split; [apply release_state | auto].
  - split; [apply clear_state | auto].
  - split; [apply setSustain_state | auto].
Qed.

Lemma step_state (m : Method) (w : World) :
  state w.2 = STATE_KEYDN ∨ state w.2 = STATE_KEYUP →
  state (step m w).1.2 = STATE_KEYDN ∨ state (step m w).1.2 = STATE_KEYUP.
Proof.
  intros Hw. destruct m; simpl.
  - unfold onPress. destruct (isReleased w.2); simpl; [| done].
    left. apply press_state.
  - unfold onRelease. destruct (isPressed w.2); simpl; [| done].
    right. apply release_state.
  - left. apply press_state.
  - right. apply release_state.
  - right. apply clear_state.
  - now rewrite (proj1 (setSustain_state _ _)).
Qed.

Lemma run_state (ms : list Method) : ∀ w : World,
  state w.2 = STATE_KEYDN ∨ state w.2 = STATE_KEYUP →
  (state (run ms w).1.2 = STATE_KEYDN ∨ state (run ms w).1.2 = STATE_KEYUP)
  ∧ Forall (λ e : Event, e.1.1 = "key" ∧ e.2 = noteNumber w.2
                         ∧ (e.1.2 = STATE_KEYDN ∨ e.1.2 = STATE_KEYUP))
           (run ms w).2.
Proof.
  induction ms as [| m ms IH]; intros w Hw; simpl; [done |].
  pose proof (step_state m w Hw) as Hs.
  pose proof (step_events m w) as [Hn He].
  destruct (step m w) as [w' fired]. simpl in *.
  destruct (IH w' Hs) as [IH1 IH2]. rewrite Hn in IH2.
  destruct (run ms w') as [w'' fired']. simpl in *.
  split; [exact IH1 |]. apply Forall_app. split; [| exact IH2].
  destruct He as [-> | (-> & _ & _)]; [done |].
  apply Forall_cons. split; [| done]. simpl. done.
Qed.

(** A step that is not a handler fires nothing; a handler that fires
    nothing leaves the world alone. *)
Lemma handler_silent (m : Method) (w : World) :
  is_handler m = true → (step m w).2 = [] → (step m w).1 = w.
Proof.
  destruct m; try discriminate; intros _; simpl.
  - unfold onPress. now destruct (isReleased w.2).
  - unfold onRelease. now destruct (isPressed w.2).
Qed.

(** When only the handlers run, the events alternate and the first one
    differs from the state the key starts in. *)
Lemma run_handlers_alternate (ms : list Method) : ∀ w : World,
  forallb is_handler ms = true →
  alternates (run ms w).2
  ∧ ∀ e rest, (run ms w).2 = e :: rest → e.1.2 ≠ state w.2.
Proof.
  induction ms as [| m ms IH]; intros w Hh; simpl; [done |].
  simpl in Hh. apply andb_prop in Hh as [Hm Hms].
  pose proof (step_events m w) as [_ He].
  pose proof (handler_silent m w Hm) as Hsil.
  destruct (step m w) as [w' fired]. simpl in *.
  destruct (IH w' Hms) as [IH1 IH2].
  destruct (run ms w') as [w'' fired']. simpl in *.
  destruct He as [-> | (-> & Hne & _)].
  - specialize (Hsil eq_refl). subst w'. done.
  - simpl. split.
    + destruct fired' as [| e2 rest]; [done |]. split; [| exact IH1].
      simpl. intros E. now apply (IH2 e2 rest).
    + intros e rest [= <- <-]. exact Hne.
Qed.

(** C10, as the code has it. For a key made by [init] and any sequence of
    its handlers and methods: the state stays 'on' or 'off'; every event
    is a 'key' event for the key's note that carries 'on' or 'off';
    [onPress] fires only when it finds the key released and then reports
    'on', [onRelease] only when it finds it pressed and then reports
    'off', so an event never repeats the state the key was in; and over a
    sequence in which only the two handlers run, consecutive events
    alternate. *)
Theorem key_event_reports_a_state_change (n : Z) (p : Prototype) (ms : list Method) :
  ∃ k : Key,
    init (Some n) = Return k
    ∧ (state (run ms (p, k)).1.2 = "on" ∨ state (run ms (p, k)).1.2 = "off")
    ∧ Forall (λ e : Event, e.1.1 = "key" ∧ e.2 = n ∧ (e.1.2 = "on" ∨ e.1.2 = "off"))
             (run ms (p, k)).2
    ∧ (∀ (m : Method) (w : World),
         (step m w).2 = []
         ∨ (step m w).2 = [("key", state (step m w).1.2, noteNumber w.2)]
           ∧ state (step m w).1.2 ≠ state w.2
           ∧ (m = OnPress ∧ state w.2 = "off" ∧ state (step m w).1.2 = "on"
              ∨ m = OnRelease ∧ state w.2 = "on" ∧ state (step m w).1.2 = "off"))
    ∧ (forallb is_handler ms = true → alternates (run ms (p, k)).2).
Proof.
  eexists. split; [reflexivity |].
  set (k := {| state := STATE_KEYUP; sustain := SUSTAIN_OFF;
               noteNumber := n; fill := None |}).
  assert (Hk : state (p, k).2 = STATE_KEYDN ∨ state (p, k).2 = STATE_KEYUP)
    by (right; reflexivity).
  destruct (run_state ms (p, k) Hk) as [H1 H2].
  split; [exact H1 |]. split; [exact H2 |]. split.
  - intros m w. apply step_events.
  - intros Hh. now apply run_handlers_alternate.
Qed.

(** The instance of C10 at note 60 and the handlers press, release, press. *)
Lemma key_event_reports_a_state_change_witness :
  forallb is_handler [OnPress; OnRelease; OnPress] = true
  ∧ ∃ k : Key,
      init (Some 60) = Return k
      ∧ alternates (run [OnPress; OnRelease; OnPress] (WhitePianoKey_prototype, k)).2.
Proof.
  assert (Hh : forallb is_handler [OnPress; OnRelease; OnPress] = true)
    by reflexivity.
  split; [exact Hh |].
  destruct (key_event_reports_a_state_change 60 WhitePianoKey_prototype
              [OnPress; OnRelease; OnPress]) as (k & Hk & _ & _ & _ & Halt).
  exists k. split; [exact Hk |]. exact (Halt Hh).
Defined.

(** C10, as it is written. [clear()] (like [press()] and [release()])
    changes the state and fires nothing: after onPress, clear(), onPress
    the key has fired 'on' twice in a row. *)
Lemma key_events_repeat_after_clear :
  ∃ k : Key,
    init (Some 60) = Return k
    ∧ (run [OnPress; Clear; OnPress] (WhitePianoKey_prototype, k)).2
      = [("key", "on", 60); ("key", "on", 60)]
    ∧ ¬ alternates (run [OnPress; Clear; OnPress] (WhitePianoKey_prototype, k)).2.
Proof.
  eexists. split; [reflexivity |].
  assert (E : (run [OnPress; Clear; OnPress]
                 (WhitePianoKey_prototype,
                  {| state := STATE_KEYUP; sustain := SUSTAIN_OFF;
                     noteNumber := 60; fill := None |})).2
              = [("key", "on", 60); ("key", "on", 60)])
    by (vm_compute; reflexivity).
  split; [exact E |]. rewrite E. simpl. intros [H _]. now apply H.
Qed.

End PianoKeys.

(* ===================================================================== *)
(** ** The chord: further properties of the commands *)
(* ===================================================================== *)

Section ChordCommandsMore.

Import Chord Spec Vocabulary.

(** X1. A command touches one note: after [noteOn(id)] or [noteOff(id)]
    every other note is on exactly when it was before, and the events
    fired, if any, name [id]. *)
Theorem note_commands_touch_one_note (id other : Z) (this : Chord) :
  id ≠ other →
  isNoteOn other (noteOn id this).1.2 = isNoteOn other this
  ∧ isNoteOn other (noteOff id this).1.2 = isNoteOn other this
  ∧ Forall (λ e : Event, e.2 = id) (noteOn id this).2
  ∧ Forall (λ e : Event, e.2 = id) (noteOff id this).2.
Proof.
  intros Hne.
  rewrite isNoteOn_noteOn, isNoteOn_noteOff.
  rewrite !bool_decide_eq_false_2 by done.
  split; [done |]. split; [done |]. simpl.
  split; destruct (bool_decide _); simpl; repeat constructor.
Qed.

(** The instance of X1 at the notes 60 and 64. *)
Lemma note_commands_touch_one_note_witness :
  isNoteOn 64 (noteOff 60 (after [NoteOn 60; NoteOn 64])).1.2
  = isNoteOn 64 (after [NoteOn 60; NoteOn 64]).
Proof.
  assert (Hne : 60 ≠ 64) by lia.
  exact (proj1 (proj2 (note_commands_touch_one_note
                         60 64 (after [NoteOn 60; NoteOn 64]) Hne))).
Defined.

(** X2. The last command wins: [noteOn(id)] followed by [noteOff(id)]
    leaves the chord that [noteOff(id)] alone leaves, [noteOff(id)] followed
    by [noteOn(id)] the chord that [noteOn(id)] alone leaves, and commands
    for two notes can be swapped. *)
Theorem last_note_command_wins (id other : Z) (this : Chord) :
  (noteOff id (noteOn id this).1.2).1.2 = (noteOff id this).1.2
  ∧ (noteOn id (noteOff id this).1.2).1.2 = (noteOn id this).1.2
  ∧ (noteOn id (noteOn other this).1.2).1.2 = (noteOn other (noteOn id this).1.2).1.2
  ∧ (noteOff id (noteOff other this).1.2).1.2
    = (noteOff other (noteOff id this).1.2).1.2
  ∧ (bool_decide (id = other) = false →
     (noteOn id (noteOff other this).1.2).1.2
     = (noteOff other (noteOn id this).1.2).1.2).
Proof.
  unfold noteOn, noteOff. simpl. repeat split.
  - now rewrite delete_insert_eq.
  - now rewrite insert_delete_eq.
  - f_equal. destruct (decide (id = other)) as [-> | Hne]; [done |].
    apply insert_insert_ne. intros H. apply ToString_inj in H. congruence.
  - f_equal. apply delete_delete.
  - intros Hne. apply bool_decide_eq_false in Hne. f_equal.
    symmetry. apply delete_insert_ne. intros H. apply ToString_inj in H. congruence.
Qed.

(** The events fired for one note by a run, from any chord: they go on,
    off, on, ... starting with the command the note's state allows. *)
Lemma run_commands_alternate (calls : list Call) (id : Z) : ∀ this : Chord,
  on_off_from (negb (isNoteOn id this)) (commands_for id (run calls this).2)
  ∧ length (commands_for id (run calls this).2)
    = changes_for id calls (run calls this).1.2.
Proof.
  induction calls as [| c calls IH]; intros this; [done |].
  simpl.
  assert (Hs : isNoteOn id (call c this).1.2
               = if bool_decide (number_of c = id)
                 then (match c with NoteOn _ => true | NoteOff _ => false end)
                 else isNoteOn id this).
  { destruct c as [n | n]; unfold call, number_of.
    - apply isNoteOn_noteOn.
    - apply isNoteOn_noteOff. }
  assert (Hf : (call c this).2
               = if (call c this).1.1
                 then [("change", match c with NoteOn _ => "on" | NoteOff _ => "off" end,
                        number_of c)]
                 else []).
  { destruct c as [n | n]; reflexivity. }
  assert (Hc : (call c this).1.1
               = match c with
                 | NoteOn n => negb (isNoteOn n this)
                 | NoteOff n => isNoteOn n this
                 end).
  { destruct c as [n | n]; unfold call.
    - apply noteOn_changed.
    - apply noteOff_changed. }
  destruct (call c this) as [[changed this'] fired]. simpl in Hs, Hf, Hc.
  specialize (IH this'). destruct IH as [IH1 IH2].
  destruct (run calls this') as [[this'' flags] fired']. simpl in *.
  unfold commands_for in *. rewrite List.filter_app, map_app, length_app.
  rewrite Hs in IH1. subst fired.
  case_bool_decide as E.
  - subst id. destruct changed; simpl.
    + rewrite Z.eqb_refl. simpl. rewrite IH2. split; [| done].
      destruct c as [n | n]; simpl in *; rewrite <- Hc; simpl; done.
    + split; [| done].
      destruct c as [n | n]; simpl in *; rewrite <- Hc in *; simpl in *; done.
  - rewrite andb_false_l. destruct changed; simpl; [| done].
    destruct (Z.eqb_spec (number_of c) id) as [E' | _]; [done |]. done.
Qed.

(** X3. Over any sequence of calls on a new chord, one 'change' event is
    fired per call that reports a change; the events fired for one note go
    on, off, on, ..., starting with 'on', and there are as many of them as
    calls for that note that reported a change. *)
Theorem change_events_alternate_per_note (calls : list Call) (id : Z) :
  on_off_from true (commands_for id (run calls new).2)
  ∧ length (commands_for id (run calls new).2)
    = changes_for id calls (run calls new).1.2
  ∧ length (run calls new).2 = length (List.filter (λ b : bool, b) (run calls new).1.2)
  ∧ Forall (λ e : Event, e.1.1 = "change") (run calls new).2.
Proof.
  destruct (run_commands_alternate calls id new) as [H1 H2].
  split; [exact H1 |]. split; [exact H2 |]. clear H1 H2.
  generalize new. induction calls as [| c calls IH]; intros this; [done |].
  simpl.
  assert (Hf : (call c this).2 = [] ∧ (call c this).1.1 = false
               ∨ (∃ e, (call c this).2 = [e] ∧ e.1.1 = "change")
                 ∧ (call c this).1.1 = true).
  { destruct c as [n | n]; simpl; destruct (bool_decide _); simpl; eauto. }
  destruct (call c this) as [[changed this'] fired]. simpl in Hf.
  specialize (IH this'). destruct IH as [IH1 IH2].
  destruct (run calls this') as [[this'' flags] fired']. simpl in *.
  rewrite length_app.
  destruct Hf as [[-> ->] | [[e [-> He]] ->]]; simpl.
  - done.
  - split; [now rewrite IH1 |]. now constructor.
Qed.

End ChordCommandsMore.

(* ===================================================================== *)
(** ** The chord: further properties of the queries *)
(* ===================================================================== *)

Section ChordQueriesMore.

Import Chord Spec Vocabulary.

Lemma lookup_true_after (calls : list Call) (k : string) :
  _notes (after calls) !! k = Some true
  ↔ ∃ id : Z, k = ToString id ∧ last_call_on id calls false = true.
Proof.
  split.
  - intros Hk. destruct (note_names_only_after calls k true Hk) as [_ [id ->]].
    exists id. split; [done |].
    destruct (run_isNoteOn calls id new) as [_ H]. fold (after calls) in H.
    rewrite isNoteOn_new in H. rewrite <- H. unfold isNoteOn. now rewrite Hk.
  - intros [id [-> Hl]].
    destruct (run_isNoteOn calls id new) as [_ H]. fold (after calls) in H.
    rewrite isNoteOn_new, Hl in H. unfold isNoteOn in H.
    destruct (_notes (after calls) !! ToString id) as [[|] |]; done.
Qed.

Lemma lookup_after_cases (calls : list Call) (k : string) :
  _notes (after calls) !! k = Some true ∨ _notes (after calls) !! k = None.
Proof.
  destruct (_notes (after calls) !! k) as [b |] eqn:E; [| now right].
  destruct (note_names_only_after calls k b E) as [-> _]. now left.
Qed.

(** X4. The chord after a sequence of calls holds exactly the notes whose
    last call was a [noteOn], each under the name of its number and with
    the value [true]; so two sequences that end every note with the same
    command leave the same chord. *)
Theorem chord_holds_notes_last_turned_on (calls : list Call) :
  (∀ k : string,
     _notes (after calls) !! k = Some true
     ↔ ∃ id : Z, k = ToString id ∧ last_call_on id calls false = true)
  ∧ (∀ k : string,
       _notes (after calls) !! k = Some true ∨ _notes (after calls) !! k = None)
  ∧ (∀ calls' : list Call,
       (∀ id : Z, last_call_on id calls false = last_call_on id calls' false) →
       after calls = after calls').
Proof.
  split; [apply lookup_true_after |]. split; [apply lookup_after_cases |].
  intros calls' Hsame.
  assert (E : _notes (after calls) = _notes (after calls')).
  { apply map_eq. intros k.
    destruct (lookup_after_cases calls k) as [H1 | H1],
             (lookup_after_cases calls' k) as [H2 | H2]; try congruence.
    - apply lookup_true_after in H1 as [id [-> Hl]]. rewrite Hsame in Hl.
      assert (H : _notes (after calls') !! ToString id = Some true)
        by (apply lookup_true_after; eauto).
      congruence.
    - apply lookup_true_after in H2 as [id [-> Hl]]. rewrite <- Hsame in Hl.
      assert (H : _notes (after calls) !! ToString id = Some true)
        by (apply lookup_true_after; eauto).
      congruence. }
  destruct (after calls), (after calls'). simpl in E. now subst.
Qed.

(** The names a run leaves in the chord were there before or are the
    names of numbers it was called with. *)
Lemma names_come_from_calls (calls : list Call) (k : string) : ∀ this : Chord,
  is_Some (_notes (run calls this).1.1 !! k) →
  is_Some (_notes this !! k) ∨ ∃ c : Call, c ∈ calls ∧ k = ToString (number_of c).
Proof.
  induction calls as [| c calls IH]; intros this; [now left |].
  simpl.
  assert (Hc : ∀ k', is_Some (_notes (call c this).1.2 !! k') →
                     is_Some (_notes this !! k') ∨ k' = ToString (number_of c)).
  { intros k'. destruct c as [n | n]; simpl.
    - destruct (decide (ToString n = k')) as [<- | Hne]; [now right |].
      rewrite lookup_insert_ne by done. now left.
    - destruct (decide (ToString n = k')) as [<- | Hne]; [now right |].
      rewrite lookup_delete_ne by done. now left. }
  destruct (call c this) as [[changed this'] fired]. simpl in Hc.
  specialize (IH this').
  destruct (run calls this') as [[this'' flags] fired']. simpl in *.
  intros Hk. destruct (IH Hk) as [H | [c' [Hc' ->]]].
  - destruct (Hc k H) as [H' | ->]; [now left |].
    right. exists c. split; [apply list_elem_of_here | done].
  - right. exists c'. split; [now apply list_elem_of_further | done].
Qed.

(** X5. When the calls are made with note numbers of the MIDI range,
    [getSortedNotes] lists every note that is on once, under the decimal
    name of its number, and nothing else; its length is the number of
    notes, and the names are in the order of their code units. *)
Theorem getSortedNotes_lists_each_note_once (calls : list Call) :
  Forall (λ c : Call, 0 ≤ number_of c ≤ 127) calls →
  NoDup (getSortedNotes (after calls))
  ∧ (∀ id : Z, 0 ≤ id ≤ 127 →
       (ToString id ∈ getSortedNotes (after calls)
        ↔ isNoteOn id (after calls) = true))
  ∧ (∀ s : string, s ∈ getSortedNotes (after calls) →
       ∃ id : Z, 0 ≤ id ≤ 127 ∧ s = ToString id ∧ ToNumber s = Num id
                 ∧ isNoteOn id (after calls) = true)
  ∧ (∀ id : Z, isNoteOn id (after calls) = true → 0 ≤ id ≤ 127)
  ∧ length (getSortedNotes (after calls)) = size (_notes (after calls))
  ∧ Sorted code_unit_le (getSortedNotes (after calls)).
Proof.
  intros Hrange.
  assert (Hnames : ∀ s : string, s ∈ getSortedNotes (after calls) →
            ∃ id : Z, 0 ≤ id ≤ 127 ∧ s = ToString id).
  { intros s Hs. apply elem_of_getSortedNotes in Hs.
    destruct (names_come_from_calls calls s new Hs) as [[b Hb] | [c [Hc ->]]].
    - simpl in Hb. now rewrite lookup_empty in Hb.
    - exists (number_of c). split; [| done].
      rewrite Forall_forall in Hrange. now apply Hrange. }
  split; [apply NoDup_getSortedNotes |].
  split; [intros id _; symmetry; apply isNoteOn_elem_of |].
  split; [| split; [| split; [apply length_getSortedNotes | apply sort_Sorted]]].
  - intros s Hs. destruct (Hnames s Hs) as [id [Hid ->]].
    exists id. split; [done |]. split; [done |].
    split; [apply ToNumber_ToString | now apply isNoteOn_elem_of].
  - intros id Hon. apply isNoteOn_elem_of in Hon.
    destruct (Hnames _ Hon) as [id' [Hid' E]]. apply ToString_inj in E. now subst.
Qed.

(** The instance of X5 at the calls noteOn(60), noteOn(9), noteOff(60). *)
Lemma getSortedNotes_lists_each_note_once_witness :
  Forall (λ c : Call, 0 ≤ number_of c ≤ 127) [NoteOn 60; NoteOn 9; NoteOff 60]
  ∧ NoDup (getSortedNotes (after [NoteOn 60; NoteOn 9; NoteOff 60]))
  ∧ length (getSortedNotes (after [NoteOn 60; NoteOn 9; NoteOff 60]))
    = size (_notes (after [NoteOn 60; NoteOn 9; NoteOff 60])).
Proof.
  assert (H : Forall (λ c : Call, 0 ≤ number_of c ≤ 127)
                [NoteOn 60; NoteOn 9; NoteOff 60])
    by (repeat constructor; simpl; lia).
  split; [exact H |].
  destruct (getSortedNotes_lists_each_note_once _ H) as (H1 & _ & _ & _ & H5 & _).
  split; [exact H1 | exact H5].
Defined.

(** On the MIDI range, names with the same number of digits compare as
    their numbers do. *)
Lemma same_digits_compare (a b : Z) :
  same_digits a b = true →
  String.leb (ToString a) (ToString b) = Z.leb a b.
Proof.
  intros Hd.
  assert (Hall : forallb (λ x, forallb (λ y,
              implb (same_digits x y)
                    (Bool.eqb (String.leb (ToString x) (ToString y)) (Z.leb x y)))
              midi_range) midi_range = true) by (vm_compute; reflexivity).
  assert (Hin : ∀ z, 0 ≤ z ≤ 127 → In z midi_range).
  { intros z Hz. unfold midi_range. apply in_map_iff. exists (Z.to_nat z).
    split; [lia |]. apply in_seq. lia. }
  assert (Hr : 0 ≤ a ≤ 127 ∧ 0 ≤ b ≤ 127) by (unfold same_digits in Hd; lia).
  rewrite forallb_forall in Hall. specialize (Hall a (Hin a (proj1 Hr))).
  rewrite forallb_forall in Hall. specialize (Hall b (Hin b (proj2 Hr))).
  rewrite Hd in Hall. simpl in Hall. now apply Bool.eqb_prop in Hall.
Qed.

Lemma StronglySorted_impl_elem {A} (R1 R2 : relation A) (l : list A) :
  (∀ x y, x ∈ l → y ∈ l → R1 x y → R2 x y) →
  StronglySorted R1 l → StronglySorted R2 l.
Proof.
  intros Himp Hs. induction Hs as [| x l Hs IH Hx]; constructor.
  - apply IH. intros a b Ha Hb. apply Himp; now apply list_elem_of_further.
  - rewrite Forall_forall in *. intros y Hy. apply Himp.
    + apply list_elem_of_here.
    + now apply list_elem_of_further.
    + now apply Hx.
Qed.

(** X6. When the notes that are on lie in the MIDI range and are all
    written with the same number of digits (all below 10, all from 10 to
    99, or all from 100 on), [getSortedNotes] is in numeric order. *)
Theorem getSortedNotes_numeric_for_same_digits (calls : list Call) :
  (∀ a b : Z, isNoteOn a (after calls) = true → isNoteOn b (after calls) = true →
              same_digits a b = true) →
  StronglySorted numeric_le (getSortedNotes (after calls)).
Proof.
  intros Hd.
  apply (StronglySorted_impl_elem code_unit_le).
  - intros x y Hx Hy Hle.
    apply elem_of_getSortedNotes in Hx as [bx Hx], Hy as [bY Hy].
    destruct (note_names_only_after calls x bx Hx) as [_ [a ->]].
    destruct (note_names_only_after calls y bY Hy) as [_ [b ->]].
    unfold numeric_le. rewrite !ToNumber_ToString.
    assert (Ha : isNoteOn a (after calls) = true)
      by (apply isNoteOn_elem_of, elem_of_getSortedNotes; eauto).
    assert (Hb : isNoteOn b (after calls) = true)
      by (apply isNoteOn_elem_of, elem_of_getSortedNotes; eauto).
    unfold code_unit_le in Hle. rewrite (same_digits_compare a b) in Hle by auto.
    apply Is_true_true in Hle. now apply Z.leb_le.
  - apply Sorted_StronglySorted; [apply code_unit_le_trans | apply sort_Sorted].
Qed.

(** The instance of X6 at the triad 72, 60, 64: it comes out as 60, 64, 72. *)
Lemma getSortedNotes_numeric_for_same_digits_witness :
  StronglySorted numeric_le (getSortedNotes (after [NoteOn 72; NoteOn 60; NoteOn 64])).
Proof.
  apply getSortedNotes_numeric_for_same_digits.
  intros a b Ha Hb.
  apply isNoteOn_elem_of in Ha, Hb.
  assert (E : getSortedNotes (after [NoteOn 72; NoteOn 60; NoteOn 64])
              = [ToString 60; ToString 64; ToString 72]) by (vm_compute; reflexivity).
  rewrite E in Ha, Hb.
  repeat (apply elem_of_cons in Ha as [Ha | Ha]; [apply ToString_inj in Ha; subst a |]);
    [| | | now apply elem_of_nil in Ha];
  repeat (apply elem_of_cons in Hb as [Hb | Hb]; [apply ToString_inj in Hb; subst b |]);
    try (now apply elem_of_nil in Hb); reflexivity.
Defined.

(** The loop of [hasNotes] for a clef that [noteNumBelongsToClef] answers
    with the test [p]: whether some name passes. *)
Lemma hasNotes_loop_filter (clef : Value) (p : string → bool) (names : list string) :
  ToBoolean clef = true →
  (∀ noteNum, noteNumBelongsToClef noteNum clef = Return (p noteNum)) →
  hasNotes_loop clef names = Return (existsb p names).
Proof.
  intros Hc Hp. induction names as [| n names IH]; simpl; [done |].
  rewrite Hc, Hp. simpl. now destruct (p n).
Qed.

Lemma existsb_names (p : string → bool) (calls : list Call) :
  existsb p (ownKeys (_notes (after calls))) = true
  ↔ ∃ id : Z, isNoteOn id (after calls) = true ∧ p (ToString id) = true.
Proof.
  rewrite existsb_exists. split.
  - intros [s [Hs Hp]]. apply list_elem_of_In, elem_of_ownKeys in Hs as [b Hb].
    destruct (note_names_only_after calls s b Hb) as [-> [id ->]].
    exists id. split; [| done]. unfold isNoteOn. now rewrite Hb.
  - intros [id [Hon Hp]]. exists (ToString id). split; [| done].
    apply list_elem_of_In, elem_of_ownKeys. unfold isNoteOn in Hon.
    destruct (_notes (after calls) !! ToString id); [eauto | done].
Qed.

(** X7. On the chord after any sequence of calls, [hasNotes] never throws
    for 'treble', 'bass' or no clef: without a clef it tells whether some
    note is on, with 'treble' whether some note from 60 up is on, and with
    'bass' whether some note below 60 is on. *)
Theorem hasNotes_tells_whether_a_note_is_on (calls : list Call) :
  ∃ any treble bass : bool,
    hasNotes VUndefined (after calls) = Return any
    ∧ hasNotes (VString "treble") (after calls) = Return treble
    ∧ hasNotes (VString "bass") (after calls) = Return bass
    ∧ (any = true ↔ ∃ id : Z, isNoteOn id (after calls) = true)
    ∧ (treble = true ↔ ∃ id : Z, isNoteOn id (after calls) = true ∧ 60 ≤ id)
    ∧ (bass = true ↔ ∃ id : Z, isNoteOn id (after calls) = true ∧ id < 60).
Proof.
  exists (existsb (λ _, true) (ownKeys (_notes (after calls)))),
         (existsb (λ s, JS.ge (ToNumber s) 60) (ownKeys (_notes (after calls)))),
         (existsb (λ s, JS.lt (ToNumber s) 60) (ownKeys (_notes (after calls)))).
  split; [| split; [| split; [| split; [| split]]]].
  - unfold hasNotes. rewrite hasNotes_loop_no_clef by done.
    now destruct (ownKeys _).
  - unfold hasNotes. now apply hasNotes_loop_filter.
  - unfold hasNotes. now apply hasNotes_loop_filter.
  - rewrite existsb_names. split; intros [id H]; exists id; tauto.
  - rewrite existsb_names. split; intros [id [H1 H2]]; exists id;
      rewrite ToNumber_ToString in *; simpl in *; split; (done || lia).
  - rewrite existsb_names. split; intros [id [H1 H2]]; exists id;
      rewrite ToNumber_ToString in *; simpl in *; split; (done || lia).
Qed.

(** X8. On a chord whose property names are the names of integers, as
    [noteOn] makes them, [mapNotes] never throws for 'treble', 'bass' or a
    falsy clef: it applies the callback once to each sorted note the clef
    keeps ('treble' the notes from 60 up, 'bass' the notes below 60, a
    falsy clef all), in the sorted order; with any clef it is
    [getNoteNumbers] followed by the callback. *)
Theorem mapNotes_maps_the_notes_of_the_clef {A} (callback : string → A)
    (this : Chord) :
  note_names_only this →
  (∃ treble bass : list string,
     mapNotes callback (VString "treble") this = Return (map callback treble)
     ∧ mapNotes callback (VString "bass") this = Return (map callback bass)
     ∧ treble = List.filter (λ s, JS.ge (ToNumber s) 60) (getSortedNotes this)
     ∧ bass = List.filter (λ s, JS.lt (ToNumber s) 60) (getSortedNotes this)
     ∧ (∀ s : string,
          s ∈ treble ↔ s ∈ getSortedNotes this ∧ ∃ id : Z, s = ToString id ∧ 60 ≤ id)
     ∧ (∀ s : string,
          s ∈ bass ↔ s ∈ getSortedNotes this ∧ ∃ id : Z, s = ToString id ∧ id < 60)
     ∧ treble ++ bass ≡ₚ getSortedNotes this)
  ∧ (∀ clef, match ToBoolean clef with
             | false => mapNotes callback clef this
                        = Return (map callback (getSortedNotes this))
             | true => True
             end)
  ∧ (∀ clef, mapNotes callback clef this
             = let! names := getNoteNumbers clef this in Return (map callback names)).
Proof.
  intros Hwf.
  assert (Hnames : ∀ s, s ∈ getSortedNotes this → ∃ id : Z, s = ToString id).
  { intros s Hs. apply elem_of_getSortedNotes in Hs as [b Hb].
    now destruct (Hwf s b Hb) as [_ H]. }
  split; [| split].
  - eexists _, _. split; [| split; [| split; [reflexivity | split; [reflexivity |]]]].
    + unfold mapNotes.
      now rewrite (mapNotes_loop_filter _ _ (λ s, JS.ge (ToNumber s) 60)).
    + unfold mapNotes.
      now rewrite (mapNotes_loop_filter _ _ (λ s, JS.lt (ToNumber s) 60)).
    + split; [| split].
      * intros s. rewrite elem_of_filter_bool. split.
        -- intros [Hs Hge]. split; [done |]. destruct (Hnames s Hs) as [id ->].
           exists id. split; [done |]. rewrite ToNumber_ToString in Hge.
           now apply Z.leb_le.
        -- intros [Hs [id [-> Hge]]]. split; [done |]. rewrite ToNumber_ToString.
           now apply Z.leb_le.
      * intros s. rewrite elem_of_filter_bool. split.
        -- intros [Hs Hlt]. split; [done |]. destruct (Hnames s Hs) as [id ->].
           exists id. split; [done |]. rewrite ToNumber_ToString in Hlt.
           now apply Z.ltb_lt.
        -- intros [Hs [id [-> Hlt]]]. split; [done |]. rewrite ToNumber_ToString.
           now apply Z.ltb_lt.
      * apply filter_split. intros s Hs. destruct (Hnames s Hs) as [id ->].
        rewrite ToNumber_ToString. simpl.
        destruct (Z.leb_spec 60 id), (Z.ltb_spec id 60); (done || lia).
  - intros clef. destruct (ToBoolean clef) eqn:E; [done |].
    unfold mapNotes. now rewrite mapNotes_loop_no_clef.
  - intros clef. apply mapNotes_callback.
Qed.

(** The instance of X8 at the chord with the notes 60 and 9. *)
Lemma mapNotes_maps_the_notes_of_the_clef_witness :
  note_names_only (after [NoteOn 60; NoteOn 9])
  ∧ ∃ treble bass : list string,
      mapNotes (λ noteNum, noteNum) (VString "treble") (after [NoteOn 60; NoteOn 9])
      = Return (map (λ noteNum, noteNum) treble)
      ∧ mapNotes (λ noteNum, noteNum) (VString "bass") (after [NoteOn 60; NoteOn 9])
        = Return (map (λ noteNum, noteNum) bass).
Proof.
  assert (H : note_names_only (after [NoteOn 60; NoteOn 9]))
    by apply note_names_only_after.
  split; [exact H |].
  destruct (mapNotes_maps_the_notes_of_the_clef (λ noteNum, noteNum) _ H)
    as ((treble & bass & Ht & Hb & _) & _).
  exists treble, bass. split; [exact Ht | exact Hb].
Defined.

(** X9. For a note number in [0,127] the pitch class is in [0,11], the
    octave in [-1,9], and the two give the number back:
    12 * (octave + 1) + pitchClass = id; so different numbers have
    different pitches. *)
Theorem notePitch_gives_the_number_back (id : Z) :
  0 ≤ id ≤ 127 →
  ∃ pc oct : Z,
    notePitch (ToString id) = {| pitchClass := Num pc; octave := Num oct |}
    ∧ 0 ≤ pc ≤ 11 ∧ -1 ≤ oct ≤ 9
    ∧ 12 * (oct + 1) + pc = id
    ∧ (∀ id' : Z, notePitch (ToString id') = notePitch (ToString id) → id' = id).
Proof.
  intros Hid. exists (Z.rem id 12), (id / 12 - 1).
  split; [apply notePitch_ToString |].
  assert (Hr : Z.rem id 12 = id mod 12) by (apply Z.rem_mod_nonneg; lia).
  pose proof (Z.mod_pos_bound id 12 ltac:(lia)) as Hm.
  pose proof (Z.div_mod id 12 ltac:(lia)) as Hdm.
  split; [lia |].
  split; [lia |].
  split; [lia |].
  intros id' E. rewrite !notePitch_ToString in E. injection E as E1 E2.
  assert (Hd : id' / 12 = id / 12) by lia.
  destruct (Z.le_gt_cases 0 id') as [Hpos | Hneg].
  - rewrite Z.rem_mod_nonneg in E1 by lia.
    pose proof (Z.div_mod id' 12 ltac:(lia)). lia.
  - pose proof (Z.div_lt_upper_bound id' 12 0 ltac:(lia) ltac:(lia)). lia.
Qed.

(** The instance of X9 at the highest note, 127: pitch class 7, octave 9. *)
Lemma notePitch_gives_the_number_back_witness :
  ∃ pc oct : Z,
    notePitch (ToString 127) = {| pitchClass := Num pc; octave := Num oct |}
    ∧ 12 * (oct + 1) + pc = 127.
Proof.
  assert (H : 0 ≤ 127 ≤ 127) by lia.
  destruct (notePitch_gives_the_number_back 127 H) as (pc & oct & E & _ & _ & Hs & _).
  exists pc, oct. split; [exact E | exact Hs].
Defined.

End ChordQueriesMore.

(* ===================================================================== *)
(** ** The configuration reader: nested keys *)
(* ===================================================================== *)

Section ConfigReaderMore.

Import Config.

Lemma get_each_app (key : string) (pieces rest : list string) : ∀ config : Value,
  get_each key config (pieces ++ rest)
  = let! found := get_each key config pieces in get_each key found rest.
Proof.
  induction pieces as [| piece pieces IH]; intros config; simpl; [done |].
  destruct (hasOwnProperty config piece) as [[|] | e]; simpl; auto.
Qed.

(** Which key is named in the error does not change what is found. *)
Lemma get_each_found (key key' : string) (pieces : list string) (v : Value) :
  ∀ config : Value,
    get_each key config pieces = Return v → get_each key' config pieces = Return v.
Proof.
  induction pieces as [| piece pieces IH]; intros config; simpl; [done |].
  destruct (hasOwnProperty config piece) as [[|] | e]; simpl; try done. apply IH.
Qed.

(** X10. A nested key is read step by step: [get("a.b")] returns [u]
    exactly when [get("a")] returns some value [v] and reading [b] in [v]
    returns [u]; in particular it throws whenever [get("a")] throws. *)
Theorem get_reads_nested_keys_step_by_step (a b : string) (u : Value) (this : Config) :
  (get (VString (a ++ "." ++ b)%string) this).1 = Return u
  ↔ ∃ v : Value, (get (VString a) this).1 = Return v
                 ∧ (get (VString b) {| __config := v |}).1 = Return u.
Proof.
  simpl. rewrite split_dot_app, get_each_app. split.
  - destruct (get_each (a ++ "." ++ b) (__config this) (split_dot a))
      as [v | e] eqn:E; simpl; [| done].
    intros H. exists v. split.
    + now apply (get_each_found (a ++ "." ++ b)).
    + now apply (get_each_found (a ++ "." ++ b)).
  - intros (v & Ha & Hb).
    rewrite (get_each_found a (a ++ "." ++ b) _ v _ Ha). simpl.
    now apply (get_each_found b).
Qed.

(** X11. Reading below a leaf fails in two ways: when [get("a")] returns
    [null] or [undefined], [get("a.b")] raises the engine's TypeError and
    not the reader's own error; when it returns a number or a boolean,
    [get("a.b")] throws "Key not found" with the whole key. *)
Theorem get_below_a_leaf_throws (a b : string) (v : Value) (this : Config) :
  (get (VString a) this).1 = Return v →
  match v with
  | VNull | VUndefined =>
      (get (VString (a ++ "." ++ b)%string) this).1 = Throw TypeError
  | VNumber _ | VBoolean _ =>
      (get (VString (a ++ "." ++ b)%string) this).1
      = Throw (Error "Key not found: " (Some (VString (a ++ "." ++ b)%string)))
  | _ => True
  end.
Proof.
  simpl. intros Ha. rewrite split_dot_app, get_each_app.
  rewrite (get_each_found a (a ++ "." ++ b) _ v _ Ha). simpl.
  destruct (split_dot_cons b) as (piece & pieces & ->).
  destruct v; simpl; try done.
Qed.

(** The instance of X11 at a tree whose [tempo] is [null]. *)
Lemma get_below_a_leaf_throws_witness :
  (get (VString "general.tempo.unit")
       {| __config := VObject (<["general" := VObject (<["tempo" := VNull]> ∅)]> ∅) |}).1
  = Throw TypeError.
Proof.
  apply (get_below_a_leaf_throws "general.tempo" "unit" VNull).
  vm_compute. reflexivity.
Defined.

End ConfigReaderMore.

(* ===================================================================== *)
(** ** The stave notaters: construction, frame and rows *)
(* ===================================================================== *)

Section NotatersMore.

Import Chord StaveNotater StaveNotaterText Vocabulary.

Ltac each_drawn H :=
  repeat (apply elem_of_app in H as [H | H]);
  repeat (apply elem_of_cons in H as [-> | H]);
  try (now apply elem_of_nil in H).

(** X12. [StaveNotater.create] returns a notater exactly when the clef is
    'treble' or 'bass' and the config has [stave], [keySignature] and
    [analyzeConfig]; the notater then has the prototype of the clef, these
    three values and the config's chord, which may be missing. With a
    known clef the error names the first of the three that is missing. *)
Theorem create_needs_a_clef_and_three_properties (clef : Value) (c : config.t) :
  ((∃ n, create clef c = Return n)
   ↔ (clef = VString "treble" ∨ clef = VString "bass")
     ∧ is_Some (config.stave c) ∧ is_Some (config.keySignature c)
     ∧ is_Some (config.analyzeConfig c))
  ∧ (∀ n, create clef c = Return n →
          (clef = VString "treble" ∧ kind n = TrebleStaveNotater
           ∨ clef = VString "bass" ∧ kind n = BassStaveNotater)
          ∧ config.stave c = Some (stave n)
          ∧ config.keySignature c = Some (keySignature n)
          ∧ config.analyzeConfig c = Some (analyzeConfig n)
          ∧ chord n = config.chord c)
  ∧ (∀ k : Kind,
       clef = VString "treble" ∧ k = TrebleStaveNotater
       ∨ clef = VString "bass" ∧ k = BassStaveNotater →
       create clef c
       = match config.stave c, config.keySignature c, config.analyzeConfig c with
       | None, _, _ =>
           Throw (Error "missing required config property: " (Some (VString "stave")))
       | Some _, None, _ =>
           Throw (Error "missing required config property: "
                        (Some (VString "keySignature")))
       | Some _, Some _, None =>
           Throw (Error "missing required config property: "
                        (Some (VString "analyzeConfig")))
       | Some s, Some ks, Some ac =>
           Return {| kind := k; stave := s; keySignature := ks;
                     analyzeConfig := ac; chord := config.chord c |}
       end).
Proof.
  assert (Hinit : ∀ k, init k c
            = match config.stave c, config.keySignature c, config.analyzeConfig c with
              | None, _, _ =>
                  Throw (Error "missing required config property: "
                               (Some (VString "stave")))
              | Some _, None, _ =>
                  Throw (Error "missing required config property: "
                               (Some (VString "keySignature")))
              | Some _, Some _, None =>
                  Throw (Error "missing required config property: "
                               (Some (VString "analyzeConfig")))
              | Some s, Some ks, Some ac =>
                  Return {| kind := k; stave := s; keySignature := ks;
                            analyzeConfig := ac; chord := config.chord c |}
              end).
  { intros k. unfold init.
    destruct (config.stave c), (config.keySignature c), (config.analyzeConfig c); done. }
  assert (Hclef : (clef = VString "treble" ∧ create clef c = init TrebleStaveNotater c)
                  ∨ (clef = VString "bass" ∧ create clef c = init BassStaveNotater c)
                  ∨ (clef ≠ VString "treble" ∧ clef ≠ VString "bass"
                     ∧ create clef c
                       = Throw (Error "no such notater for clef: " (Some clef)))).
  { unfold create. destruct clef as [| | | | name |]; try (right; right; done).
    destruct (String.eqb_spec name "treble") as [-> | Ht]; [left; done |].
    destruct (String.eqb_spec name "bass") as [-> | Hb]; [right; left; done |].
    right; right. repeat split; congruence. }
  split; [| split].
  - destruct Hclef as [[-> ->] | [[-> ->] | (Ht & Hb & ->)]]; rewrite ?Hinit.
    + destruct (config.stave c), (config.keySignature c), (config.analyzeConfig c);
        split; try (intros [n Hn]; discriminate);
        try (intros (_ & [? ?] & [? ?] & [? ?]); discriminate); eauto 10.
    + destruct (config.stave c), (config.keySignature c), (config.analyzeConfig c);
        split; try (intros [n Hn]; discriminate);
        try (intros (_ & [? ?] & [? ?] & [? ?]); discriminate); eauto 10.
    + split; [intros [n Hn]; discriminate | intros ([? | ?] & _); done].
  - intros n. destruct Hclef as [[-> ->] | [[-> ->] | (Ht & Hb & ->)]];
      rewrite ?Hinit; [| | done];
      destruct (config.stave c), (config.keySignature c), (config.analyzeConfig c);
      try done; intros [= <-]; simpl; auto 10.
  - intros k [[-> ->] | [-> ->]]; apply Hinit.
Qed.

(** The instance of X12 at the clef 'treble' and an empty config. *)
Lemma create_needs_a_clef_and_three_properties_witness :
  create (VString "treble")
         {| config.stave := None; config.keySignature := None;
            config.analyzeConfig := None; config.chord := None |}
  = Throw (Error "missing required config property: " (Some (VString "stave"))).
Proof.
  exact (proj2 (proj2 (create_needs_a_clef_and_three_properties (VString "treble")
           {| config.stave := None; config.keySignature := None;
              config.analyzeConfig := None; config.chord := None |}))
           TrebleStaveNotater (or_introl (conj eq_refl eq_refl))).
Defined.

(** X13. [notate] always returns; it saves the context and sets the font
    first and restores the context last. In between come the stave's own
    mark, drawn only on the first bar (the metronome mark above a treble
    stave, the key name below a bass stave), and then what [notateChord]
    draws, which is nothing when the analysis is disabled or the notater
    has no chord. *)
Theorem notate_frames_what_it_draws (this : Notater) :
  ∃ drawn : list Action,
    notate this
    = Return ([save; font "14px Georgia, serif"] ++ notateStave this ++ drawn ++ [restore])
    ∧ notateStave this
      = (if isFirstBar (stave this)
         then [match kind this with
               | TrebleStaveNotater =>
                   drawMetronomeMark (getStartX (stave this) + 10)
                                     (getTopY (stave this) - 25)
               | BassStaveNotater =>
                   drawKeyName (getStartX (stave this) + 10)
                               (getBottomY (stave this) + 25)
               end]
         else [])
    ∧ match chord this with
      | Some c => if ToBoolean (enabled (analyzeConfig this))
                  then notateChord this c = Return drawn
                  else drawn = []
      | None => drawn = []
      end.
Proof.
  unfold notate, isAnalyzerEnabled.
  assert (Hs : notateStave this
      = (if isFirstBar (stave this)
         then [match kind this with
               | TrebleStaveNotater =>
                   drawMetronomeMark (getStartX (stave this) + 10)
                                     (getTopY (stave this) - 25)
               | BassStaveNotater =>
                   drawKeyName (getStartX (stave this) + 10)
                               (getBottomY (stave this) + 25)
               end]
         else [])).
  { unfold notateStave, getX, getY. now destruct (isFirstBar _), (kind this). }
  destruct (chord this) as [c |]; [destruct (ToBoolean (enabled _)) |].
  - destruct (notateChord_by_number_of_notes this c) as (drawn & E & _).
    exists drawn. rewrite E.
    split; [reflexivity |]. split; [exact Hs | reflexivity].
  - exists []. split; [reflexivity |]. split; [exact Hs | reflexivity].
  - exists []. split; [| split; [exact Hs | reflexivity]].
    now destruct (ToBoolean (enabled _)).
Qed.

(** X14. What [notateChord] draws, by row. A treble notater draws at most
    one annotation in its first row (scale degree or solfege) and at most
    one in its second (note name or Helmholtz), and nothing of a row whose
    two flags are both set or both unset; the first row is 25 above the top
    of the stave, the second at the top. A bass notater draws at most one
    annotation, 25 below the bottom. All are 10 right of the start. *)
Theorem notateChord_rows (this : Notater) (c : Chord) :
  ∃ actions : list Action,
    notateChord this c = Return actions
    ∧ (count first_row actions ≤ 1)%nat
    ∧ (count second_row actions ≤ 1)%nat
    ∧ (ToBoolean (scale_degrees (mode (analyzeConfig this)))
       = ToBoolean (solfege (mode (analyzeConfig this))) →
       count first_row actions = 0%nat)
    ∧ (ToBoolean (note_names (mode (analyzeConfig this)))
       = ToBoolean (helmholtz (mode (analyzeConfig this))) →
       count second_row actions = 0%nat)
    ∧ match kind this with
      | TrebleStaveNotater =>
          length actions = (count first_row actions + count second_row actions)%nat
      | BassStaveNotater =>
          (length actions ≤ 1)%nat
          ∧ count first_row actions = 0%nat ∧ count second_row actions = 0%nat
      end
    ∧ ∀ a, a ∈ actions →
        position a
        = Some (getStartX (stave this) + 10,
                match kind this with
                | TrebleStaveNotater =>
                    if first_row a then getTopY (stave this) - 25
                    else getTopY (stave this)
                | BassStaveNotater => getBottomY (stave this) + 25
                end).
Proof.
  unfold notateChord, notateChord_treble, notateChord_bass.
  rewrite getNoteNumbers_no_clef by done. simpl. unfold getX, getY, margin_top,
    margin_bottom.
  destruct (kind this).
  - destruct (length (getSortedNotes c) =? 1)%nat.
    + eexists. split; [reflexivity |].
      destruct (ToBoolean (scale_degrees _)), (ToBoolean (solfege _)),
        (ToBoolean (note_names _)), (ToBoolean (helmholtz _)); simpl;
        (repeat split;
         first [ done | unfold count; simpl; lia
               | intros a Ha; each_drawn Ha; simpl; repeat f_equal; lia ]).
    + eexists. split; [reflexivity |]. simpl.
      repeat split;
        first [ done | unfold count; simpl; lia | intros a Ha; now apply elem_of_nil in Ha ].
  - destruct (length (getSortedNotes c) =? 2)%nat;
      [| destruct (2 <? length (getSortedNotes c))%nat].
    + eexists. split; [reflexivity |].
      destruct (ToBoolean (intervals _)); simpl;
        (repeat split;
         first [ done | unfold count; simpl; lia | intros a Ha; each_drawn Ha; done ]).
    + eexists. split; [reflexivity |].
      destruct (ToBoolean (roman_numerals _)); simpl;
        (repeat split;
         first [ done | unfold count; simpl; lia | intros a Ha; each_drawn Ha; done ]).
    + eexists. split; [reflexivity |]. simpl.
      repeat split;
        first [ done | unfold count; simpl; lia | intros a Ha; now apply elem_of_nil in Ha ].
Qed.

(** X15. The two staves never annotate the same chord: whatever their
    configs, a treble notater or a bass notater draws nothing for it. *)
Theorem one_stave_annotates_a_chord (treble bass : Notater) (c : Chord) :
  kind treble = TrebleStaveNotater → kind bass = BassStaveNotater →
  notateChord treble c = Return [] ∨ notateChord bass c = Return [].
Proof.
  intros Ht Hb. unfold notateChord. rewrite Ht, Hb.
  unfold notateChord_treble, notateChord_bass.
  rewrite getNoteNumbers_no_clef by done. simpl.
  destruct (Nat.eqb_spec (length (getSortedNotes c)) 1) as [E | E].
  - right. rewrite E. reflexivity.
  - now left.
Qed.

(** The instance of X15 at two notaters over the chord with note 60. *)
Lemma one_stave_annotates_a_chord_witness :
  ∃ treble bass : Notater,
    notateChord treble (after [NoteOn 60]) = Return []
    ∨ notateChord bass (after [NoteOn 60]) = Return [].
Proof.
  pose (ac := {| enabled := VBoolean true; tempo := VUndefined;
                 mode := {| note_names := VBoolean true; helmholtz := VBoolean false;
                            scale_degrees := VBoolean true; solfege := VBoolean false;
                            intervals := VBoolean true;
                            roman_numerals := VBoolean true |} |}).
  pose (st := {| getStartX := 0; getTopY := 100; getBottomY := 200;
                 isFirstBar := true |}).
  exists {| kind := TrebleStaveNotater; stave := st;
            keySignature := {| getKeyShortName := "C" |};
            analyzeConfig := ac; chord := None |},
         {| kind := BassStaveNotater; stave := st;
            keySignature := {| getKeyShortName := "C" |};
            analyzeConfig := ac; chord := None |}.
  apply one_stave_annotates_a_chord; reflexivity.
Defined.

Lemma drawTextLines_loop_lookup (lines : list string) (x y : Z) :
  ∀ (i : Z) (n : nat),
    drawTextLines_loop lines x y i !! n
    = (λ line, (line, x, y + (i + Z.of_nat n) * 15)) <$> lines !! n.
Proof.
  induction lines as [| line lines IH]; intros i n; simpl; [done |].
  destruct n as [| n]; simpl.
  - unfold textLineHeight. repeat f_equal. lia.
  - rewrite IH. now replace (i + 1 + Z.of_nat n) with (i + Z.of_nat (S n)) by lia.
Qed.

(** X16. [drawTextLines] writes each line once, in order, all at the same
    [x]: line number [n] (from 0) at [y + 15 * n]. *)
Theorem drawTextLines_one_call_per_line (lines : list string) (x y : Z) :
  length (drawTextLines lines x y) = length lines
  ∧ ∀ n : nat,
      drawTextLines lines x y !! n
      = (λ line, (line, x, y + 15 * Z.of_nat n)) <$> lines !! n.
Proof.
  split.
  - unfold drawTextLines. generalize 0.
    induction lines as [| line lines IH]; intros i; simpl; [done |].
    now rewrite IH.
  - intros n. unfold drawTextLines. rewrite drawTextLines_loop_lookup.
    now replace ((0 + Z.of_nat n) * 15) with (15 * Z.of_nat n) by lia.
Qed.

End NotatersMore.

(* ===================================================================== *)
(** ** The piano keys: colours, sustain and clicks *)
(* ===================================================================== *)

Section PianoKeysMore.

Import PianoKey.

Lemma revertColor_lookup (keyState : string) (w : World) :
  keyColorMap (revertColor keyState w).1 !! keyState
  = defaultKeyColorMap w.1 !! keyState.
Proof.
  destruct w as [p k]. simpl.
  destruct (defaultKeyColorMap p !! keyState) eqn:E.
  - now rewrite lookup_insert_eq.
  - now rewrite lookup_delete_eq.
Qed.

Lemma revertColor_other (keyState other : string) (w : World) :
  keyState ≠ other →
  keyColorMap (revertColor keyState w).1 !! other = keyColorMap w.1 !! other.
Proof.
  intros Hne. destruct w as [p k]. simpl.
  destruct (defaultKeyColorMap p !! keyState).
  - now rewrite lookup_insert_ne.
  - now rewrite lookup_delete_ne.
Qed.

Lemma release_colour (w : World) :
  fill (release w).2
  = (if String.eqb (sustain w.2) SUSTAIN_ON then Some COLOR_KEYSUSTAIN
     else defaultKeyColorMap w.1 !! STATE_KEYUP)
  ∧ defaultKeyColorMap (release w).1 = defaultKeyColorMap w.1
  ∧ keyColorMap (release w).1 !! STATE_KEYDN = keyColorMap w.1 !! STATE_KEYDN
  ∧ sustain (release w).2 = sustain w.2.
Proof.
  destruct w as [p k]. unfold release. cbn [snd fst].
  destruct (String.eqb (sustain k) SUSTAIN_ON).
  - simpl. rewrite lookup_insert_eq. rewrite lookup_insert_ne by done. done.
  - assert (E : (if String.eqb (sustain k) SUSTAIN_OFF
                 then revertColor STATE_KEYUP (p, k)
                 else revertColor STATE_KEYUP (p, k)) = revertColor STATE_KEYUP (p, k))
      by now destruct (String.eqb _ _).
    rewrite E.
    pose proof (revertColor_lookup STATE_KEYUP (p, k)) as H1.
    pose proof (revertColor_other STATE_KEYUP STATE_KEYDN (p, k) ltac:(done)) as H2.
    assert (Hk : (revertColor STATE_KEYUP (p, k)).2 = k
                 ∧ defaultKeyColorMap (revertColor STATE_KEYUP (p, k)).1
                   = defaultKeyColorMap p) by done.
    destruct (revertColor STATE_KEYUP (p, k)) as [p' k'].
    destruct Hk as [Hk Hd]. simpl in *. subst k'. done.
Qed.


(** X18. [setSustain] changes neither the state of the key nor its note:
    it sets the sustain to 'on' for a truthy argument and to 'off'
    otherwise, and when it turns the sustain off on a released key it
    gives the key its default colour back, while a pressed key keeps its
    colour. *)
Theorem setSustain_keeps_the_state (v : Value) (w : World) :
  state (setSustain v w).2 = state w.2
  ∧ noteNumber (setSustain v w).2 = noteNumber w.2
  ∧ sustain (setSustain v w).2 = (if ToBoolean v then "on" else "off")
  ∧ fill (setSustain v w).2
    = (if ToBoolean v then fill w.2
       else if String.eqb (state w.2) "off" then defaultKeyColorMap w.1 !! "off"
       else fill w.2).
Proof.
  destruct (setSustain_state v w) as [H1 H2].
  split; [exact H1 |]. split; [exact H2 |].
  destruct w as [p k]. unfold setSustain. simpl.
  destruct (ToBoolean v).
  - now destruct (isPressed _).
  - unfold isReleased, STATE_KEYUP. simpl.
    destruct (String.eqb (state k) "off"); [| done].
    destruct (release_colour (p, set_sustain SUSTAIN_OFF k)) as (Hr1 & _ & _ & Hr4).
    simpl in *. done.
Qed.

(** X19. The handlers are idempotent and undo each other: a second
    [onPress] in a row, or a second [onRelease], changes nothing and fires
    nothing; on a released key [onPress] then [onRelease] fires 'on' then
    'off' for the key's note and leaves it released. *)
Theorem handlers_are_idempotent (w : World) :
  onPress (onPress w).1 = ((onPress w).1, [])
  ∧ onRelease (onRelease w).1 = ((onRelease w).1, [])
  ∧ (state w.2 = "off" →
     (run [OnPress; OnRelease] w).2
     = [("key", "on", noteNumber w.2); ("key", "off", noteNumber w.2)]
     ∧ state (run [OnPress; OnRelease] w).1.2 = "off").
Proof.
  split; [| split].
  - unfold onPress at 2 3. destruct (isReleased w.2) eqn:E; simpl.
    + unfold onPress, isReleased. now rewrite (proj1 (press_state w)).
    + unfold onPress. now rewrite E.
  - unfold onRelease at 2 3. destruct (isPressed w.2) eqn:E; simpl.
    + unfold onRelease, isPressed. now rewrite (proj1 (release_state w)).
    + unfold onRelease. now rewrite E.
  - intros Hs. destruct w as [p k]. simpl in Hs.
    unfold run, step, onPress, onRelease, isReleased, isPressed, press, release,
      STATE_KEYUP, STATE_KEYDN, SUSTAIN_ON, SUSTAIN_OFF.
    simpl. rewrite Hs. simpl.
    destruct (String.eqb (sustain k) "on");
      [| destruct (String.eqb (sustain k) "off")]; simpl; done.
Qed.

End PianoKeysMore.

(* ===================================================================== *)
(** ** The MIDI router: what is sent and what is triggered *)
(* ===================================================================== *)

Section Routing.

Import MIDIRouter.

Variable JMB : JazzMidiBridge.

(** X21. [onNoteOutput] with no output selected raises a TypeError and
    neither sends nor triggers anything. With an output it sends one
    message and triggers 'note:render' only, never 'note:input'. The command
    is NOTE_ON for the state 'on' and NOTE_OFF for every other state; a
    velocity that is missing or 0 goes out as 100, in the message and in
    the event; no channel is passed. *)
Theorem onNoteOutput_sends_and_renders (noteState noteNumber noteVelocity : Value)
    (this : Router) :
  match output this with
  | None => onNoteOutput JMB noteState noteNumber noteVelocity this = Throw TypeError
  | Some device =>
      ∃ (m : MIDIMessage) (velocity : Value),
        onNoteOutput JMB noteState noteNumber noteVelocity this
        = Return [sendMIDIMessage device m;
                  eventBus_trigger "note:render" [noteState; noteNumber; velocity]]
        ∧ (noteState = VString "on" → command m = VNumber (NOTE_ON JMB))
        ∧ (noteState ≠ VString "on" → command m = VNumber (NOTE_OFF JMB))
        ∧ data1 m = noteNumber ∧ data2 m = velocity ∧ channel m = VUndefined
        ∧ velocity = (if ToBoolean noteVelocity then noteVelocity else VNumber 100)
  end
  ∧ onNoteOutput JMB noteState noteNumber (VNumber 0) this
    = onNoteOutput JMB noteState noteNumber (VNumber 100) this
  ∧ onNoteOutput JMB noteState noteNumber VUndefined this
    = onNoteOutput JMB noteState noteNumber (VNumber 100) this.
Proof.
  unfold onNoteOutput. split; [| done].
  destruct (output this) as [device |]; [| done].
  eexists _, _. split; [reflexivity |]. simpl. repeat split.
  - now intros ->.
  - intros Hne. destruct noteState as [| | | | s |]; try done.
    destruct (String.eqb_spec s "on") as [-> | Hs]; done.
Qed.

(** X23. [onJMBInit] selects the device at the default index of each list
    that is not empty and keeps the selection it had for a list that is
    empty; it listens for 'midimessage' exactly when an input is selected
    afterwards. On a new router without output devices no output is
    selected, so [onNoteOutput] raises a TypeError while [onNoteInput]
    still reports the notes. *)
Theorem onJMBInit_selects_the_default_devices (outputs inputs : list Device)
    (this : Router) :
  output (onJMBInit outputs inputs this).1
  = match outputs with
    | [] => output this
    | _ => outputs !! outputIndex (defaults this)
    end
  ∧ input (onJMBInit outputs inputs this).1
    = match inputs with
      | [] => input this
      | _ => inputs !! inputIndex (defaults this)
      end
  ∧ outputDevices (onJMBInit outputs inputs this).1 = outputs
  ∧ inputDevices (onJMBInit outputs inputs this).1 = inputs
  ∧ (∀ device : Device,
       addEventListener device "midimessage" "onNoteInput"
         ∈ (onJMBInit outputs inputs this).2
       ↔ input (onJMBInit outputs inputs this).1 = Some device)
  ∧ output (onJMBInit [] inputs new).1 = None
  ∧ (∀ noteState noteNumber noteVelocity,
       onNoteOutput JMB noteState noteNumber noteVelocity (onJMBInit [] inputs new).1
       = Throw TypeError)
  ∧ (∀ msg, sent (onNoteInput JMB msg (onJMBInit [] inputs new).1) = []).
Proof.
  unfold onJMBInit, detectDevices, selectDefaultDevices. simpl.
  split; [now destruct outputs |]. split; [now destruct inputs |].
  split; [done |]. split; [done |].
  split; [| split; [done | split; [done |]]].
  2: { intros msg. unfold onNoteInput. simpl.
       now destruct (is_number (command msg) (NOTE_ON JMB)
                     || is_number (command msg) (NOTE_OFF JMB)). }
  intros device. unfold initListeners. simpl.
  set (i := if (0 <? length inputs)%nat then inputs !! inputIndex (defaults this)
            else input this).
  rewrite !elem_of_cons.
  destruct i as [d |].
  - rewrite list_elem_of_singleton. split.
    + intros [H | [H | [H | [H | H]]]]; try discriminate; congruence.
    + intros [= ->]. auto 10.
  - split; [| done].
    intros [H | [H | [H | [H | H]]]]; try discriminate. now apply elem_of_nil in H.
Qed.

End Routing.

(* ===================================================================== *)
(** ** The MIDI router: the handlers before and after [onJMBInit] *)
(* ===================================================================== *)

Section RoutingMethods.

Import MIDIRouter.

Variable JMB : JazzMidiBridge.

(** After [onJMBInit] the access object is set and the other fields are
    those [MIDIRouter.onJMBInit] leaves. *)
Lemma onJMBInit_sets_midiAccess (outputs inputs : list Device)
    (this : MIDIRouterMethods.This) :
  MIDIRouterMethods.midiAccess (MIDIRouterMethods.onJMBInit outputs inputs this).1 = true
  ∧ MIDIRouterMethods.router (MIDIRouterMethods.onJMBInit outputs inputs this).1
    = (onJMBInit outputs inputs (MIDIRouterMethods.router this)).1.
Proof. done. Qed.

(** The output a new router has after [onJMBInit]: the first output
    device. *)
Lemma onJMBInit_new_output (outputs inputs : list Device) :
  output (MIDIRouterMethods.router
            (MIDIRouterMethods.onJMBInit outputs inputs MIDIRouterMethods.new).1)
  = head outputs
  ∧ this_channel (MIDIRouterMethods.router
                    (MIDIRouterMethods.onJMBInit outputs inputs MIDIRouterMethods.new).1)
    = 0.
Proof. now destruct outputs. Qed.

(** X20. [onNoteInput] on a router whose [midiAccess] is still [null]
    raises a TypeError before anything is sent or triggered. Once
    [midiAccess] is set it forwards every incoming message, note or not,
    to the selected output device, with the command and the two data bytes
    unchanged and the router's channel, and sends nothing when no output
    is selected; after that it triggers 'note:render' and then
    'note:input', with the same arguments, exactly for the commands
    NOTE_ON and NOTE_OFF, and the state it reports is 'on' exactly for
    NOTE_ON. On a new router that [onJMBInit] has run on, the message
    goes to the first output device on channel 0. *)
Theorem onNoteInput_forwards_and_reports_notes (msg : MIDIMessage)
    (this : MIDIRouterMethods.This) :
  (MIDIRouterMethods.midiAccess this = false →
   MIDIRouterMethods.onNoteInput JMB msg this = Throw TypeError)
  ∧ (MIDIRouterMethods.midiAccess this = true →
     ∃ args : list Value,
       MIDIRouterMethods.onNoteInput JMB msg this
       = Return
           ((match output (MIDIRouterMethods.router this) with
             | Some device =>
                 [sendMIDIMessage device
                    {| command := command msg; data1 := data1 msg; data2 := data2 msg;
                       channel := VNumber (this_channel (MIDIRouterMethods.router this)) |}]
             | None => []
             end)
            ++ (if is_number (command msg) (NOTE_ON JMB)
                   || is_number (command msg) (NOTE_OFF JMB)
                then [eventBus_trigger "note:render" args;
                      eventBus_trigger "note:input" args]
                else []))
       ∧ args = [VString (if is_number (command msg) (NOTE_ON JMB) then "on" else "off");
                 data1 msg; data2 msg])
  ∧ MIDIRouterMethods.onNoteInput JMB msg MIDIRouterMethods.new = Throw TypeError
  ∧ (∀ (outputs inputs : list Device) (start : MIDIRouterMethods.This),
       MIDIRouterMethods.onNoteInput JMB msg
         (MIDIRouterMethods.onJMBInit outputs inputs start).1
       = Return (onNoteInput JMB msg
                   (onJMBInit outputs inputs (MIDIRouterMethods.router start)).1))
  ∧ (∀ (outputs inputs : list Device) (device : Device),
       head outputs = Some device →
       ∃ reports : list Effect,
         MIDIRouterMethods.onNoteInput JMB msg
           (MIDIRouterMethods.onJMBInit outputs inputs MIDIRouterMethods.new).1
         = Return (sendMIDIMessage device
                     {| command := command msg; data1 := data1 msg;
                        data2 := data2 msg; channel := VNumber 0 |} :: reports)
         ∧ sent reports = []).
Proof.
  split; [| split; [| split; [| split]]].
  - intros Ha. unfold MIDIRouterMethods.onNoteInput, MIDIRouterMethods.createMIDIMessage.
    now rewrite Ha.
  - intros Ha. unfold MIDIRouterMethods.onNoteInput, MIDIRouterMethods.createMIDIMessage,
      MIDIRouterMethods.send_if_output.
    rewrite Ha. simpl. eauto.
  - reflexivity.
  - intros outputs inputs start. reflexivity.
  - intros outputs inputs device Hd.
    destruct (onJMBInit_new_output outputs inputs) as [Ho Hc].
    unfold MIDIRouterMethods.onNoteInput, MIDIRouterMethods.createMIDIMessage,
      MIDIRouterMethods.send_if_output.
    rewrite (proj1 (onJMBInit_sets_midiAccess outputs inputs MIDIRouterMethods.new)).
    rewrite Ho, Hc, Hd. simpl. eexists. split; [reflexivity |].
    now destruct (is_number (command msg) (NOTE_ON JMB)
                  || is_number (command msg) (NOTE_OFF JMB)).
Qed.

(** The pedals and the states have different numbers. *)
Lemma control_numbers_differ (pedal pedal' state state' : string) :
  pedal ∈ MIDIRouterMethods.pedals → pedal' ∈ MIDIRouterMethods.pedals →
  state ∈ MIDIRouterMethods.pedal_states → state' ∈ MIDIRouterMethods.pedal_states →
  MIDIRouterMethods.controlNumberOf pedal = MIDIRouterMethods.controlNumberOf pedal' →
  MIDIRouterMethods.controlValueOf state = MIDIRouterMethods.controlValueOf state' →
  pedal = pedal' ∧ state = state'.
Proof.
  unfold MIDIRouterMethods.pedals, MIDIRouterMethods.pedal_states.
  intros Hp Hp' Hs Hs'.
  repeat (apply elem_of_cons in Hp as [-> | Hp]); [| | | now apply elem_of_nil in Hp];
  repeat (apply elem_of_cons in Hp' as [-> | Hp']);
    try (now apply elem_of_nil in Hp');
  repeat (apply elem_of_cons in Hs as [-> | Hs]);
    try (now apply elem_of_nil in Hs);
  repeat (apply elem_of_cons in Hs' as [-> | Hs']);
    try (now apply elem_of_nil in Hs');
  vm_compute; intros H1 H2; try discriminate; done.
Qed.

(** X22. [onPedalChange], for the pedals 'sustain', 'sostenuto', 'soft' and
    the states 'on', 'off', and [onChangeInstrument] raise a TypeError on
    a router whose [midiAccess] is still [null]. Once it is set, each
    sends exactly one message to the selected output device, nothing when
    no output is selected, and triggers no event. The pedal message is a
    CONTROL_CHANGE on the router's channel with controller 64, 66 or 67
    and value 127 or 0, so the message tells the pedal and the state; the
    instrument message is a PROGRAM_CHANGE whose program is
    [numberOf(name)], or the default when that is negative, so it is not
    negative when the default is not. *)
Theorem control_messages (numberOf : string → Z) (name : string)
    (this : MIDIRouterMethods.This) :
  (∀ pedal state : string,
     pedal ∈ MIDIRouterMethods.pedals → state ∈ MIDIRouterMethods.pedal_states →
     ∃ controller value : Z,
       MIDIRouterMethods.onPedalChange JMB pedal state this
       = Some (if MIDIRouterMethods.midiAccess this
               then Return
                      match output (MIDIRouterMethods.router this) with
                      | Some device =>
                          [sendMIDIMessage device
                             {| command := VNumber (CONTROL_CHANGE JMB);
                                data1 := VNumber controller; data2 := VNumber value;
                                channel := VNumber (this_channel
                                                      (MIDIRouterMethods.router this)) |}]
                      | None => []
                      end
               else Throw TypeError)
       ∧ (pedal, controller) ∈ [("sustain", 64); ("sostenuto", 66); ("soft", 67)]
       ∧ (state, value) ∈ [("on", 127); ("off", 0)])
  ∧ (∀ pedal pedal' state state' : string,
       pedal ∈ MIDIRouterMethods.pedals → pedal' ∈ MIDIRouterMethods.pedals →
       state ∈ MIDIRouterMethods.pedal_states →
       state' ∈ MIDIRouterMethods.pedal_states →
       MIDIRouterMethods.midiAccess this = true →
       is_Some (output (MIDIRouterMethods.router this)) →
       MIDIRouterMethods.onPedalChange JMB pedal state this
       = MIDIRouterMethods.onPedalChange JMB pedal' state' this →
       pedal = pedal' ∧ state = state')
  ∧ (∃ program : Z,
       MIDIRouterMethods.onChangeInstrument JMB numberOf name this
       = (if MIDIRouterMethods.midiAccess this
          then Return
                 match output (MIDIRouterMethods.router this) with
                 | Some device =>
                     [sendMIDIMessage device
                        {| command := VNumber (PROGRAM_CHANGE JMB);
                           data1 := VNumber program; data2 := VNumber 0;
                           channel := VNumber (this_channel
                                                 (MIDIRouterMethods.router this)) |}]
                 | None => []
                 end
          else Throw TypeError)
       ∧ program = (if numberOf name <? 0
                    then instrumentNum (defaults (MIDIRouterMethods.router this))
                    else numberOf name)
       ∧ (0 ≤ instrumentNum (defaults (MIDIRouterMethods.router this)) → 0 ≤ program))
  ∧ (∀ (outputs inputs : list Device) (device : Device),
       head outputs = Some device →
       MIDIRouterMethods.onPedalChange JMB "sustain" "on"
         (MIDIRouterMethods.onJMBInit outputs inputs MIDIRouterMethods.new).1
       = Some (Return [sendMIDIMessage device
                         {| command := VNumber (CONTROL_CHANGE JMB);
                            data1 := VNumber 64; data2 := VNumber 127;
                            channel := VNumber 0 |}])).
Proof.
  split; [| split; [| split]].
  - intros pedal state Hp Hs.
    unfold MIDIRouterMethods.pedals, MIDIRouterMethods.pedal_states in *.
    repeat (apply elem_of_cons in Hp as [-> | Hp]); [| | | now apply elem_of_nil in Hp];
    repeat (apply elem_of_cons in Hs as [-> | Hs]);
      try (now apply elem_of_nil in Hs);
    eexists _, _;
    (split; [unfold MIDIRouterMethods.onPedalChange, MIDIRouterMethods.createMIDIMessage,
               MIDIRouterMethods.send_if_output; simpl;
             destruct (MIDIRouterMethods.midiAccess this); reflexivity |]);
    rewrite !elem_of_cons; auto 10.
  - intros pedal pedal' state state' Hp Hp' Hs Hs' Ha [device Hd] E.
    apply (control_numbers_differ pedal pedal' state state'); try done;
      unfold MIDIRouterMethods.onPedalChange, MIDIRouterMethods.createMIDIMessage,
        MIDIRouterMethods.send_if_output in E;
      rewrite Ha, Hd in E;
      unfold MIDIRouterMethods.pedals, MIDIRouterMethods.pedal_states in *;
      repeat (match goal with
              | H : _ ∈ _ :: _ |- _ => apply elem_of_cons in H as [-> | H]
              | H : _ ∈ [] |- _ => now apply elem_of_nil in H
              end);
      vm_compute in E; vm_compute; congruence.
  - eexists. split; [| split; [reflexivity |]].
    + unfold MIDIRouterMethods.onChangeInstrument, MIDIRouterMethods.createMIDIMessage,
        MIDIRouterMethods.send_if_output.
      now destruct (MIDIRouterMethods.midiAccess this).
    + intros Hd. destruct (Z.ltb_spec (numberOf name) 0); lia.
  - intros outputs inputs device Hd.
    destruct (onJMBInit_new_output outputs inputs) as [Ho Hc].
    unfold MIDIRouterMethods.onPedalChange, MIDIRouterMethods.createMIDIMessage,
      MIDIRouterMethods.send_if_output.
    rewrite (proj1 (onJMBInit_sets_midiAccess outputs inputs MIDIRouterMethods.new)).
    rewrite Ho, Hc, Hd. reflexivity.
Qed.

End RoutingMethods.

(* ===================================================================== *)
(** ** The analysis widget: values and exclusive options *)
(* ===================================================================== *)

Section Widget.

Import AnalyzeWidget.

Lemma indexOf_ge (c : ascii) (s : string) : -1 ≤ indexOf c s.
Proof.
  induction s as [| a s IH]; simpl; [lia |].
  destruct (Ascii.eqb a c); [lia |]. destruct (indexOf c s <? 0) eqn:E; lia.
Qed.

(** Where [indexOf] finds the character: after a prefix without it. *)
Lemma indexOf_found (c : ascii) (s : string) :
  indexOf c s ≠ -1 →
  ∃ a b : string, s = (a ++ String c b)%string ∧ indexOf c a = -1
                  ∧ indexOf c s = Z.of_nat (String.length a).
Proof.
  induction s as [| x s IH]; simpl; [done |].
  destruct (Ascii.eqb_spec x c) as [-> | Hx].
  - intros _. exists EmptyString, s. done.
  - pose proof (indexOf_ge c s) as Hge.
    destruct (Z.ltb_spec (indexOf c s) 0) as [Hlt | Hle]; [done |].
    intros _. destruct IH as (a & b & -> & Ha & Hi); [lia |].
    exists (String x a), b. simpl.
    destruct (Ascii.eqb_spec x c) as [| _]; [done |].
    rewrite Ha. simpl. split; [done |]. split; [done |]. lia.
Qed.

Lemma indexOf_app (c : ascii) (a b : string) :
  indexOf c a = -1 → indexOf c (a ++ String c b) = Z.of_nat (String.length a).
Proof.
  induction a as [| x a IH]; simpl.
  - intros _. now rewrite Ascii.eqb_refl.
  - destruct (Ascii.eqb x c); [done |].
    pose proof (indexOf_ge c a) as Hge.
    destruct (Z.ltb_spec (indexOf c a) 0) as [Hlt | Hle]; [| lia].
    intros _. rewrite IH by lia.
    destruct (Z.ltb_spec (Z.of_nat (String.length a)) 0); lia.
Qed.

Lemma substring_all (s : string) : String.substring 0 (String.length s) s = s.
Proof. induction s as [| x s IH]; simpl; [done |]. now rewrite IH. Qed.

Lemma substring_prefix (a r : string) :
  String.substring 0 (String.length a) (a ++ r) = a.
Proof.
  induction a as [| x a IH]; simpl.
  - now destruct r.
  - now rewrite IH.
Qed.

Lemma substring_suffix (a : string) (c : ascii) (b : string) :
  String.substring (S (String.length a)) (String.length b) (a ++ String c b) = b.
Proof.
  induction a as [| x a IH]; simpl; [apply substring_all | exact IH].
Qed.

Lemma length_append (a b : string) :
  String.length (a ++ b) = (String.length a + String.length b)%nat.
Proof. induction a as [| x a IH]; simpl; [done |]. now rewrite IH. Qed.

Lemma substr_whole (s : string) : substr s 0 None = s.
Proof.
  unfold substr. cbv zeta. change (0 <? 0) with false. cbv iota.
  set (size := Z.of_nat (String.length s)).
  assert (Hs : 0 ≤ size) by lia.
  rewrite (Z.min_l 0 size) by lia. rewrite Z.add_0_l, Z.min_id.
  destruct (Z.leb_spec size 0) as [H0 | H0].
  - destruct s; [done | simpl in size; lia].
  - replace (Z.to_nat (size - 0)) with (String.length s) by lia.
    change (Z.to_nat 0) with 0%nat. apply substring_all.
Qed.

Lemma substr_nothing (s : string) (l : Z) : l ≤ 0 → substr s 0 (Some l) = EmptyString.
Proof.
  intros Hl. unfold substr. cbv zeta. change (0 <? 0) with false. cbv iota.
  set (size := Z.of_nat (String.length s)).
  assert (Hs : 0 ≤ size) by lia.
  rewrite (Z.max_r l 0) by lia.
  rewrite (Z.min_l 0 size) by lia. rewrite (Z.min_l (0 + 0) size) by lia.
  reflexivity.
Qed.

Lemma parseValue_joined (cat opt : string) :
  indexOf "." cat = -1 → parseValue (cat ++ "." ++ opt)%string = (cat, opt).
Proof.
  intros Hc. unfold parseValue. change ("." ++ opt)%string with (String "." opt).
  rewrite indexOf_app by done. unfold substr.
  rewrite length_append. simpl String.length.
  set (la := String.length cat). set (lb := String.length opt).
  f_equal.
  - destruct (Z.ltb_spec 0 0) as [| _]; [lia |].
    rewrite (Z.min_l 0) by lia. rewrite Z.add_0_l.
    rewrite (Z.max_l (Z.of_nat la)) by lia.
    rewrite (Z.min_l (Z.of_nat la)) by lia. rewrite (Z.min_l (Z.of_nat la)) by lia.
    destruct (Z.leb_spec (Z.of_nat la) 0) as [H0 | H0].
    + destruct cat; [done | simpl in la; lia].
    + replace (Z.to_nat (Z.of_nat la - 0)) with la by lia.
      change (Z.to_nat 0) with 0%nat. apply substring_prefix.
  - destruct (Z.ltb_spec (Z.of_nat la + 1) 0) as [| _]; [lia |].
    rewrite (Z.min_l (Z.of_nat la + 1)) by lia.
    rewrite (Z.min_r _ (Z.of_nat (la + S lb))) by lia.
    destruct (Z.leb_spec (Z.of_nat (la + S lb)) (Z.of_nat la + 1)) as [H0 | H0].
    + destruct opt; [done | simpl in lb; lia].
    + replace (Z.to_nat (Z.of_nat la + 1)) with (S la) by lia.
      replace (Z.to_nat (Z.of_nat (la + S lb) - (Z.of_nat la + 1))) with lb by lia.
      apply substring_suffix.
Qed.

(** X24. [parseValue] splits a value at its first dot: for a category
    without a dot, the value [category.option] parses back into that
    category and option; a value with a dot is its parsed category, a dot
    and its parsed option, and the category has no dot; a value without a
    dot parses into the empty category and the whole value. *)
Theorem parseValue_splits_at_the_first_dot (val : string) :
  (∀ cat opt : string,
     indexOf "." cat = -1 → parseValue (cat ++ "." ++ opt)%string = (cat, opt))
  ∧ (indexOf "." val ≠ -1 →
     ((parseValue val).1 ++ "." ++ (parseValue val).2)%string = val
     ∧ indexOf "." (parseValue val).1 = -1)
  ∧ (indexOf "." val = -1 → parseValue val = (EmptyString, val)).
Proof.
  split; [apply parseValue_joined |]. split.
  - intros Hd. apply indexOf_found in Hd as (a & b & -> & Ha & _).
    change (a ++ String "." b)%string with (a ++ "." ++ b)%string.
    now rewrite parseValue_joined.
  - intros Hd. unfold parseValue. rewrite Hd.
    now rewrite substr_nothing, substr_whole by lia.
Qed.

(** The handler on a value with a dot, once the value is parsed and its
    group is found. *)
Lemma onChange_option (val cat opt : string) (group : list Item) (checked : bool)
    (this : State) :
  indexOf "." val ≠ -1 → parseValue val = (cat, opt) →
  find_group items val [] = group →
  onChange val checked this
  = let r := uncheck_each val group
               {| enabled := enabled this;
                  mode := <[opt := VBoolean checked]> (mode this) |} in
    (r.1, changeOption cat opt checked :: r.2).
Proof.
  intros Hd Hp Hg. unfold onChange, uncheckRelated.
  destruct (Z.eqb_spec (indexOf "." val) (-1)) as [E | _]; [done |].
  rewrite Hp, Hg. simpl. now destruct (uncheck_each _ _ _).
Qed.

Ltac run_onChange :=
  erewrite onChange_option;
    [| vm_compute; discriminate | vm_compute; reflexivity | vm_compute; reflexivity];
  cbn [uncheck_each value negb String.eqb Ascii.eqb Bool.eqb fst snd];
  repeat match goal with
         | |- context [parseValue ?v] =>
             let H := fresh in
             let r := eval vm_compute in (parseValue v) in
             assert (H : parseValue v = r) by (vm_compute; reflexivity);
             rewrite H; clear H
         end;
  cbn [fst snd].

Lemma onChange_paired (a b : string) (checked : bool) (this : State) :
  (a, b) ∈ [("note_names", "helmholtz"); ("helmholtz", "note_names");
            ("scale_degrees", "solfege"); ("solfege", "scale_degrees")] →
  onChange ("analyze." ++ a)%string checked this
  = ({| enabled := enabled this;
        mode := <[b := VBoolean false]> (<[a := VBoolean checked]> (mode this)) |},
     [changeOption "analyze" a checked; changeOption "analyze" b false]).
Proof.
  intros H. repeat (apply elem_of_cons in H as [[= -> ->] | H]);
    [| | | | now apply elem_of_nil in H];
    cbn [String.append]; run_onChange; reflexivity.
Qed.

Lemma onChange_single (a : string) (checked : bool) (this : State) :
  a ∈ ["intervals"; "roman_numerals"] →
  onChange ("analyze." ++ a)%string checked this
  = ({| enabled := enabled this; mode := <[a := VBoolean checked]> (mode this) |},
     [changeOption "analyze" a checked]).
Proof.
  intros H. repeat (apply elem_of_cons in H as [-> | H]);
    [| | now apply elem_of_nil in H];
    cbn [String.append]; run_onChange; reflexivity.
Qed.

Lemma onChange_category (val : string) (checked : bool) (this : State) :
  indexOf "." val = -1 →
  onChange val checked this
  = ({| enabled := VBoolean checked; mode := mode this |}, [changeCategory val checked]).
Proof. intros H. unfold onChange. now rewrite H. Qed.

(** X25. A change of a checkbox the widget renders: for an option of a
    pair (note names and Helmholtz, scale degrees and solfege) the handler
    stores the checked flag under the option, stores [false] under the
    other option of the pair whatever the flag is, and triggers
    'changeOption' for the option and then for the other one with
    [false]; for 'intervals' and 'roman_numerals' it stores the flag and
    triggers one event; for a value without a dot it stores the flag in
    [enabled], leaves [mode] alone and triggers 'changeCategory'. *)
Theorem onChange_unchecks_the_other_option (checked : bool) (this : State) :
  (∀ a b : string,
     (a, b) ∈ [("note_names", "helmholtz"); ("helmholtz", "note_names");
               ("scale_degrees", "solfege"); ("solfege", "scale_degrees")] →
     onChange ("analyze." ++ a)%string checked this
     = ({| enabled := enabled this;
           mode := <[b := VBoolean false]> (<[a := VBoolean checked]> (mode this)) |},
        [changeOption "analyze" a checked; changeOption "analyze" b false]))
  ∧ (∀ a : string,
       a ∈ ["intervals"; "roman_numerals"] →
       onChange ("analyze." ++ a)%string checked this
       = ({| enabled := enabled this;
             mode := <[a := VBoolean checked]> (mode this) |},
          [changeOption "analyze" a checked]))
  ∧ (∀ val : string,
       indexOf "." val = -1 →
       onChange val checked this
       = ({| enabled := VBoolean checked; mode := mode this |},
          [changeCategory val checked])).
Proof.
  split; [| split].
  - intros a b. apply onChange_paired.
  - intros a. apply onChange_single.
  - intros val. apply onChange_category.
Qed.

Lemma is_set_insert (k k' : string) (v e : Value) (m : gmap string Value) :
  is_set k {| enabled := e; mode := <[k' := v]> m |}
  = if decide (k' = k) then ToBoolean v else is_set k {| enabled := e; mode := m |}.
Proof.
  unfold is_set. simpl. case_decide as E.
  - subst. now rewrite lookup_insert_eq.
  - now rewrite lookup_insert_ne.
Qed.

Lemma is_set_mode (k : string) (e e' : Value) (m : gmap string Value) :
  is_set k {| enabled := e; mode := m |} = is_set k {| enabled := e'; mode := m |}.
Proof. reflexivity. Qed.

Ltac settle_exclusive this H1 H2 :=
  destruct this as [e m];
  unfold exclusive in *; cbn [fst enabled mode];
  rewrite !is_set_insert;
  repeat (case_decide; try congruence);
  cbn [ToBoolean];
  rewrite ?(is_set_mode _ _ e) in *;
  rewrite ?andb_false_l, ?andb_false_r; auto.

Lemma onChange_exclusive (val : string) (checked : bool) (this : State) :
  val ∈ values → exclusive this → exclusive (onChange val checked this).1.
Proof.
  intros Hv [H1 H2]. unfold values in Hv. simpl in Hv.
  repeat (apply elem_of_cons in Hv as [-> | Hv]);
    [| | | | | | | now apply elem_of_nil in Hv].
  - now rewrite onChange_category.
  - rewrite (onChange_paired "note_names" "helmholtz") by (rewrite !elem_of_cons; auto).
    settle_exclusive this H1 H2.
  - rewrite (onChange_paired "helmholtz" "note_names") by (rewrite !elem_of_cons; auto).
    settle_exclusive this H1 H2.
  - rewrite (onChange_paired "scale_degrees" "solfege") by (rewrite !elem_of_cons; auto 6).
    settle_exclusive this H1 H2.
  - rewrite (onChange_paired "solfege" "scale_degrees") by (rewrite !elem_of_cons; auto 6).
    settle_exclusive this H1 H2.
  - rewrite (onChange_single "intervals") by (rewrite !elem_of_cons; auto).
    settle_exclusive this H1 H2.
  - rewrite (onChange_single "roman_numerals") by (rewrite !elem_of_cons; auto).
    settle_exclusive this H1 H2.
Qed.

(** X26. The widget keeps the options of a pair exclusive: when the state
    has at most one of note names and Helmholtz set, and at most one of
    scale degrees and solfege, it still has after any sequence of changes
    of the checkboxes the widget renders. *)
Theorem changes_keep_the_pairs_exclusive (changes : list (string * bool)) :
  ∀ this : State,
    Forall (λ change, change.1 ∈ values) changes →
    exclusive this → exclusive (run changes this).1.
Proof.
  induction changes as [| [val checked] changes IH]; intros this Hv Hx; [done |].
  apply Forall_cons in Hv as [Hval Hv]. simpl in Hval. simpl.
  pose proof (onChange_exclusive val checked this Hval Hx) as Hx'.
  destruct (onChange val checked this) as [this' fired]. simpl in Hx'.
  specialize (IH this' Hv Hx').
  now destruct (run changes this') as [this'' fired'].
Qed.

(** The instance of X26: both members of a pair checked in turn. *)
Lemma changes_keep_the_pairs_exclusive_witness :
  exclusive (run [("analyze.note_names", true); ("analyze.helmholtz", true);
                  ("analyze.solfege", true)]
                 {| enabled := VBoolean true; mode := ∅ |}).1.
Proof.
  apply changes_keep_the_pairs_exclusive.
  - repeat constructor; vm_compute; set_solver.
  - split; reflexivity.
Defined.

End Widget.

(* ===================================================================== *)
(** ** The widget with the Analyze and Highlight checkboxes *)
(* ===================================================================== *)

Section Highlight.

Import AnalyzeWidget.

(** X27. In the widget with the Analyze and Highlight checkboxes the
    handler triggers exactly one event per change. A checkbox whose list
    item has a sub-list triggers 'changeCategory' with its value; any
    other triggers 'changeOption' with the value split at its first dot,
    and with the empty category when the value has no dot: the 'analyze'
    checkbox, which has no sub-list, triggers changeOption('', 'analyze'). *)
Theorem highlight_onChange_events (val : string) (checked : bool) (children : nat) :
  (∀ cat opt : string,
     indexOf "." cat = -1 →
     HighlightWidget.onChange (cat ++ "." ++ opt)%string checked 0
     = [changeOption cat opt checked])
  ∧ (indexOf "." val = -1 →
     HighlightWidget.onChange val checked 0 = [changeOption EmptyString val checked])
  ∧ HighlightWidget.onChange val checked (S children) = [changeCategory val checked]
  ∧ map (λ r : string * nat, HighlightWidget.onChange r.1 checked r.2)
        HighlightWidget.rendered
    = [ [changeOption EmptyString "analyze" checked];
        [changeCategory "highlight" checked];
        [changeOption "highlight" "roots" checked];
        [changeOption "highlight" "tritones" checked];
        [changeOption "highlight" "doubles" checked];
        [changeOption "highlight" "octaves" checked] ].
Proof.
  split; [| split; [| split]].
  - intros cat opt Hc. unfold HighlightWidget.onChange.
    change (0 <? 0)%nat with false. cbv iota zeta.
    pose proof (parseValue_joined cat opt Hc) as H.
    unfold parseValue in H. cbv zeta in H. injection H as H1 H2.
    now rewrite H1, H2.
  - intros Hd. unfold HighlightWidget.onChange.
    change (0 <? 0)%nat with false. cbv iota zeta. rewrite Hd.
    now rewrite substr_nothing, substr_whole by lia.
  - reflexivity.
  - destruct checked; vm_compute; reflexivity.
Qed.

End Highlight.
